(** * Fact matrix: a shallow embedding of [fact_matrix.py]

    The [FactDatabase] class of [fact-matrix/fact_matrix.py] is embedded
    function by function.  Conventions of the embedding:

    - the backing [dict] of the class is an association list in insertion
      order (a Python [dict] iterates in insertion order, and assigning to
      a key that is already present keeps that key's position);
    - the Python [set]s of the path search ([visited], [seen_paths]) and of
      [_find_all_connections] are [gset]s; a [frozenset] of keys is a
      [gset Key], so that two frozensets are equal exactly when they have
      the same elements;
    - trust scores are exact rationals in canonical form ([Qc]); the
      rounding of Python's floating point numbers is not modelled;
    - the mutable state shared by the nested closure [explore_path] is
      threaded explicitly as a [SearchState]. *)

From Stdlib Require Import List Bool Arith Lia ZArith QArith Qpower Qcanon.
From stdpp Require Import base decidable strings numbers gmap.
Import ListNotations.

Local Open Scope Qc_scope.
Local Open Scope string_scope.
Local Open Scope list_scope.

(** ** Data model *)

(** A node address is a [(category, value)] pair; the key of the store is
    the ordered pair of the two node addresses of a fact. *)
Definition Node : Type := (string * string)%type.
Definition Key : Type := (Node * Node)%type.

Record Fact : Type := mkFact {
  category1 : string;
  value1 : string;
  category2 : string;
  value2 : string;
  trust_score : Qc
}.

Definition key_of_fact (f : Fact) : Key :=
  ((category1 f, value1 f), (category2 f, value2 f)).

(** [self.facts]: keys with their facts, in insertion order. *)
Definition FactDatabase : Type := list (Key * Fact).

Definition empty_db : FactDatabase := [].

(** Python's [max(a, b)] and [min(a, b)]: the first argument is kept unless
    the second one is strictly greater (resp. strictly smaller). *)
Definition py_max (a b : Qc) : Qc := if decide (a < b) then b else a.
Definition py_min (a b : Qc) : Qc := if decide (b < a) then b else a.

(** [max(iterable)] on a non-empty sequence, given as head and tail. *)
Definition py_max_seq (x : Qc) (xs : list Qc) : Qc := fold_left py_max xs x.

(** Integer literals of the source. *)
Definition qc (z : Z) : Qc := Qc_of_Z z.

(** ** The store *)

(** [d[key] = value] on an insertion-ordered dictionary. *)
Fixpoint dict_set (d : FactDatabase) (key : Key) (value : Fact) : FactDatabase :=
  match d with
  | [] => [(key, value)]
  | (k, v) :: d' =>
      if decide (k = key) then (k, value) :: d'
      else (k, v) :: dict_set d' key value
  end.

Fixpoint dict_get (d : FactDatabase) (key : Key) : option Fact :=
  match d with
  | [] => None
  | (k, v) :: d' => if decide (k = key) then Some v else dict_get d' key
  end.

Definition add_fact (db : FactDatabase) (fact : Fact) : FactDatabase :=
  let key := key_of_fact fact in
  dict_set db key fact.

(** ** Direct contradiction *)

Definition _directly_contradicts (fact1_key fact2_key : Key) : bool :=
  let '((cat1_a, val1_a), (cat2_a, val2_a)) := fact1_key in
  let '((cat1_b, val1_b), (cat2_b, val2_b)) := fact2_key in
  if bool_decide (cat1_a = cat1_b) && bool_decide (cat2_a = cat2_b) then
    (bool_decide (val1_a = val1_b) && negb (bool_decide (val2_a = val2_b)))
    || (bool_decide (val2_a = val2_b) && negb (bool_decide (val1_a = val1_b)))
  else false.

(** ** Path trust *)

(** One turn of the loop body of [_calculate_path_trust]. *)
Definition decay_step (trust : Qc) (fi : Fact) : Qc :=
  let decay := (trust_score fi * trust) / qc 10000 in
  py_min trust (trust_score fi) * decay.

(** The loop runs over the indices [range(1, len(path))] and reads
    [path[i]]; the head of the (non-empty) path serves as the default of
    [nth], which is never used since every index is in range. *)
Definition _calculate_path_trust (path : list Fact) : Qc :=
  match path with
  | [] => qc 0
  | f0 :: _ =>
      fold_left (fun trust i => decay_step trust (nth i path f0))
                (seq 1 (length path - 1)%nat) (trust_score f0)
  end.

(** ** Supporting paths *)

(** The three mutable objects captured by the closure [explore_path]. *)
Record SearchState : Type := mkSearch {
  visited : gset Key;
  paths : list (list Fact);
  seen_paths : gset (gset Key)
}.

(** Does [fact] touch the node [(current_cat, current_val)]?  If so, the
    node on the other side, as [(next_val, next_cat)]. *)
Definition connects_to_current (fact : Fact) (current_val current_cat : string)
  : option (string * string) :=
  if bool_decide (category1 fact = current_cat) && bool_decide (value1 fact = current_val)
  then Some (value2 fact, category2 fact)
  else if bool_decide (category2 fact = current_cat) && bool_decide (value2 fact = current_val)
  then Some (value1 fact, category1 fact)
  else None.

(** [explore_path] recurses with [depth + 1] and gives up when
    [depth > 3]; [fuel] only makes the recursion structural, see
    [explore_path_fuel] below: five units are always enough. *)
Fixpoint explore_path (fuel : nat) (facts : FactDatabase)
    (current_val current_cat target_val target_cat : string)
    (current_path : list Fact) (depth : nat) (st : SearchState) : SearchState :=
  match fuel with
  | O => st
  | S fuel' =>
      if (3 <? depth)%nat then st
      else
        fold_left
          (fun st (entry : Key * Fact) =>
             let '(key, fact) := entry in
             if bool_decide (key ∈ visited st) then st
             else
               match connects_to_current fact current_val current_cat with
               | None => st
               | Some (next_val, next_cat) =>
                   let st1 := mkSearch ({[key]} ∪ visited st) (paths st) (seen_paths st) in
                   let new_path := current_path ++ [fact] in
                   let st2 :=
                     if bool_decide (next_cat = target_cat) && bool_decide (next_val = target_val)
                     then
                       let path_key : gset Key := list_to_set (map key_of_fact new_path) in
                       if bool_decide (path_key ∈ seen_paths st1) then st1
                       else mkSearch (visited st1) (paths st1 ++ [new_path])
                                     ({[path_key]} ∪ seen_paths st1)
                     else
                       explore_path fuel' facts next_val next_cat target_val target_cat
                                    new_path (depth + 1)%nat st1 in
                   mkSearch (visited st2 ∖ {[key]}) (paths st2) (seen_paths st2)
               end)
          facts st
  end.

Definition _find_supporting_paths (db : FactDatabase) (fact_key : Key) : list (list Fact) :=
  let '((cat1, val1), (cat2, val2)) := fact_key in
  paths (explore_path 5 db val1 cat1 val2 cat2 [] 0 (mkSearch ∅ [] ∅)).

(** ** Indirect contradictions *)

(** The set of nodes one hop away from [(category, value)]. *)
Definition _find_all_connections (db : FactDatabase) (category value : string) : gset Node :=
  fold_left
    (fun (connections : gset Node) (entry : Key * Fact) =>
       let '(key, fact) := entry in
       if bool_decide (category1 fact = category) && bool_decide (value1 fact = value)
       then {[(category2 fact, value2 fact)]} ∪ connections
       else if bool_decide (category2 fact = category) && bool_decide (value2 fact = value)
       then {[(category1 fact, value1 fact)]} ∪ connections
       else connections)
    db ∅.

(** [path[-1]], guarded by [if not path] in the source. *)
Definition _leads_to_contradiction (path : list Fact) (fact_key : Key) : bool :=
  match last path with
  | None => false
  | Some last_fact =>
      let last_fact_key :=
        ((category1 last_fact, value1 last_fact), (category2 last_fact, value2 last_fact)) in
      _directly_contradicts last_fact_key fact_key
  end.

(** The two nested loops of the source append, for every connected node in
    the iteration order of the set, the paths that lead to a
    contradiction.  Python leaves the iteration order of a set
    unspecified; here it is the order of [elements]. *)
Definition contradicting_paths_from (db : FactDatabase) (cat val : string)
    (connections : gset Node) (fact_key : Key) : list (list Fact) :=
  flat_map
    (fun connected : Node =>
       let '(connected_cat, connected_val) := connected in
       List.filter (fun path => _leads_to_contradiction path fact_key)
                   (_find_supporting_paths db ((cat, val), (connected_cat, connected_val))))
    (elements connections).

Definition _find_indirect_contradictions (db : FactDatabase) (fact_key : Key)
  : list (list Fact) :=
  let '((cat1, val1), (cat2, val2)) := fact_key in
  let val1_connections := _find_all_connections db cat1 val1 in
  let val2_connections := _find_all_connections db cat2 val2 in
  contradicting_paths_from db cat1 val1 val1_connections fact_key
  ++ contradicting_paths_from db cat2 val2 val2_connections fact_key.

(** [0.5 ** e] for an integer exponent. *)
Definition half_pow (e : Z) : Qc := Q2Qc (Qpower (1 # 2) e).

Definition _calculate_contradiction_impact (path : list Fact) : Qc :=
  let path_trust := _calculate_path_trust path in
  path_trust * half_pow (Z.of_nat (length path) - 1).

(** ** Queries *)

(** The facts of the store whose key directly contradicts [new_fact_key],
    in the order of the store. *)
Definition contradicting_facts (db : FactDatabase) (new_fact_key : Key) : list Fact :=
  flat_map
    (fun entry : Key * Fact =>
       let '(existing_key, existing_fact) := entry in
       if _directly_contradicts new_fact_key existing_key then [existing_fact] else [])
    db.

Definition get_fact_trust (db : FactDatabase) (category1 value1 category2 value2 : string) : Qc :=
  let new_fact_key : Key := ((category1, value1), (category2, value2)) in
  let direct_contradictions := contradicting_facts db new_fact_key in
  match direct_contradictions with
  | fact :: facts =>
      let contradiction_impact := py_max_seq (trust_score fact) (map trust_score facts) in
      py_max (qc 0) (qc 100 - contradiction_impact)
  | [] =>
      let supporting_paths := _find_supporting_paths db new_fact_key in
      match supporting_paths with
      | _ :: _ =>
          fold_left
            (fun max_support path =>
               let path_trust := _calculate_path_trust path in
               py_max max_support path_trust)
            supporting_paths (qc 0)
      | [] => qc 50
      end
  end.

(** The entries of the three lists returned by
    [analyze_fact_relationships]. *)
Record FactEntry : Type := mkFactEntry { entry_fact : Fact; fact_trust : Qc }.
Record PathEntry : Type := mkPathEntry { entry_path : list Fact; path_trust : Qc }.

Record Relationships : Type := mkRelationships {
  direct_contradictions : list FactEntry;
  supporting_facts : list PathEntry;
  indirect_contradictions : list PathEntry
}.

Definition analyze_fact_relationships (db : FactDatabase)
    (category1 value1 category2 value2 : string) : Relationships :=
  let new_fact_key : Key := ((category1, value1), (category2, value2)) in
  {| direct_contradictions :=
       map (fun existing_fact => mkFactEntry existing_fact (trust_score existing_fact))
           (contradicting_facts db new_fact_key);
     supporting_facts :=
       map (fun path => mkPathEntry path (_calculate_path_trust path))
           (_find_supporting_paths db new_fact_key);
     indirect_contradictions :=
       map (fun contradiction =>
              mkPathEntry contradiction (_calculate_contradiction_impact contradiction))
           (_find_indirect_contradictions db new_fact_key) |}.

Definition get_all_related_facts (db : FactDatabase) (category value : string) : list Fact :=
  flat_map
    (fun entry : Key * Fact =>
       let '(key, fact) := entry in
       if (bool_decide (category1 fact = category) && bool_decide (value1 fact = value))
          || (bool_decide (category2 fact = category) && bool_decide (value2 fact = value))
       then [fact] else [])
    db.

(** ** The interface of the class as one transition function

    Every public method takes the store and gives back a response and the
    store it leaves behind. *)
Inductive Request : Type :=
| AddFact (fact : Fact)
| GetFactTrust (category1 value1 category2 value2 : string)
| AnalyzeFactRelationships (category1 value1 category2 value2 : string)
| GetAllRelatedFacts (category value : string).

Inductive Response : Type :=
| RNone
| RTrust (trust : Qc)
| RRelationships (result : Relationships)
| RFacts (related : list Fact).

Definition call (req : Request) (db : FactDatabase) : Response * FactDatabase :=
  match req with
  | AddFact fact => (RNone, add_fact db fact)
  | GetFactTrust c1 v1 c2 v2 => (RTrust (get_fact_trust db c1 v1 c2 v2), db)
  | AnalyzeFactRelationships c1 v1 c2 v2 =>
      (RRelationships (analyze_fact_relationships db c1 v1 c2 v2), db)
  | GetAllRelatedFacts c v => (RFacts (get_all_related_facts db c v), db)
  end.

(** ** Vocabulary of the properties *)

(** [m] is the maximum of the list [l]. *)
Definition is_max (m : Qc) (l : list Qc) : Prop :=
  In m l /\ Forall (fun x => x <= m) l.


(** The documented range of a trust score. *)
Definition in_range (f : Fact) : Prop :=
  qc 0 <= trust_score f /\ trust_score f <= qc 100.

(** The invariant of [self.facts]: no key occurs twice, and every fact is
    filed under its own ordered address pair. *)
Definition store_ok (db : FactDatabase) : Prop :=
  List.NoDup (map fst db) /\ Forall (fun e : Key * Fact => fst e = key_of_fact (snd e)) db.

(** The two ends of a fact, and the relation "fact [f] leads from node [a]
    to node [b]" (a fact is walked in either direction). *)
Definition node1 (f : Fact) : Node := (category1 f, value1 f).
Definition node2 (f : Fact) : Node := (category2 f, value2 f).

Definition leads (f : Fact) (a b : Node) : Prop :=
  (node1 f = a /\ node2 f = b) \/ (node2 f = a /\ node1 f = b).

(** A walk over stored facts from one node to another. *)
Inductive walk (db : FactDatabase) (start : Node) : Node -> list Fact -> Prop :=
| walk_nil : walk db start start []
| walk_snoc (b c : Node) (p : list Fact) (k : Key) (f : Fact) :
    walk db start b p -> In (k, f) db -> leads f b c -> walk db start c (p ++ [f]).

(** Node [b] is one hop away from node [a]: some stored fact joins them. *)
Definition one_hop (db : FactDatabase) (a b : Node) : Prop :=
  exists (k : Key) (f : Fact), In (k, f) db /\ leads f a b.




(** ** Stores and facts of the examples *)

(** The five facts of the puzzle, as seeded by the tests and the two
    command line scripts. *)
Definition f90 : Fact := mkFact "Name" "Alex" "House" "Blue" (qc 90).
Definition f80 : Fact := mkFact "House" "Blue" "Job" "Doctor" (qc 80).
Definition doctor_coffee_70 : Fact := mkFact "Job" "Doctor" "Drink" "Coffee" (qc 70).
Definition brooke_teacher : Fact := mkFact "Name" "Brooke" "Job" "Teacher" (qc 85).
Definition red_teacher : Fact := mkFact "House" "Red" "Job" "Teacher" (qc 75).

Definition fixture : FactDatabase :=
  fold_left add_fact [f90; f80; doctor_coffee_70; brooke_teacher; red_teacher] empty_db.

(** The two facts added by [test_multiple_paths]. *)
Definition alex_coffee : Fact := mkFact "Name" "Alex" "Drink" "Coffee" (qc 85).
Definition doctor_coffee_75 : Fact := mkFact "Job" "Doctor" "Drink" "Coffee" (qc 75).

Definition multiple_paths_db : FactDatabase :=
  add_fact (add_fact fixture alex_coffee) doctor_coffee_75.

(** A four-fact chain a - b - c - d - e. *)
Definition chain4 : FactDatabase :=
  fold_left add_fact
    [ mkFact "N" "a" "N" "b" (qc 100);
      mkFact "N" "b" "N" "c" (qc 100);
      mkFact "N" "c" "N" "d" (qc 100);
      mkFact "N" "d" "N" "e" (qc 100) ]
    empty_db.

(** Facts with scores inside and outside the range 0..100. *)
Definition f50 : Fact := mkFact "Name" "Alex" "House" "Blue" (qc 50).



(** ** Vocabulary of the further properties *)

(** One turn of the loop of [explore_path], for one entry of the store,
    with [explore_path fuel] as the recursive call. *)
Definition hop (fuel : nat) (facts : FactDatabase)
    (current_val current_cat target_val target_cat : string)
    (current_path : list Fact) (depth : nat)
    (st : SearchState) (entry : Key * Fact) : SearchState :=
  let '(key, fact) := entry in
  if bool_decide (key ∈ visited st) then st
  else
    match connects_to_current fact current_val current_cat with
    | None => st
    | Some (next_val, next_cat) =>
        let st1 := mkSearch ({[key]} ∪ visited st) (paths st) (seen_paths st) in
        let new_path := current_path ++ [fact] in
        let st2 :=
          if bool_decide (next_cat = target_cat) && bool_decide (next_val = target_val)
          then
            let path_key : gset Key := list_to_set (map key_of_fact new_path) in
            if bool_decide (path_key ∈ seen_paths st1) then st1
            else mkSearch (visited st1) (paths st1 ++ [new_path])
                          ({[path_key]} ∪ seen_paths st1)
          else
            explore_path fuel facts next_val next_cat target_val target_cat
                         new_path (depth + 1)%nat st1 in
        mkSearch (visited st2 ∖ {[key]}) (paths st2) (seen_paths st2)
    end.

(** The frozenset of the address pairs of a path, as [explore_path] builds
    it for [seen_paths]. *)
Definition edge_set (path : list Fact) : gset Key :=
  list_to_set (map key_of_fact path).

(** What [seen_paths] holds is the edge sets of the recorded paths, each
    of them once. *)
Definition seen_is_recorded (ps : list (list Fact)) (seen : gset (gset Key)) : Prop :=
  seen = list_to_set (map edge_set ps) /\ List.NoDup (map edge_set ps).

(** The entries [es] lead from node [a] to node [target], one after the
    other, and reach [target] with the last entry only. *)
Fixpoint arrives_first (es : list (Key * Fact)) (a target : Node) : Prop :=
  match es with
  | [] => False
  | (k, f) :: es' =>
      match es' with
      | [] => leads f a target
      | _ :: _ => exists c : Node, leads f a c /\ c <> target /\ arrives_first es' c target
      end
  end.

(** A store seeded from a list of facts, as [initialize_database] of the
    two scripts and the test fixture do. *)
Definition seed (initial_facts : list Fact) : FactDatabase :=
  fold_left add_fact initial_facts empty_db.

(** * Properties *)

(** ** Order facts on trust scores *)

Lemma qc_0 : qc 0 = 0.
Proof. apply Qc_is_canon. reflexivity. Qed.

Lemma py_max_l a b : a <= py_max a b.
Proof.
  unfold py_max. destruct (decide (a < b)) as [H|H].
  - apply Qclt_le_weak, H.
  - apply Qcle_refl.
Qed.

Lemma py_max_r a b : b <= py_max a b.
Proof.
  unfold py_max. destruct (decide (a < b)) as [H|H].
  - apply Qcle_refl.
  - apply Qcnot_lt_le, H.
Qed.

Lemma py_max_cases a b : py_max a b = a \/ py_max a b = b.
Proof. unfold py_max. destruct (decide (a < b)); auto. Qed.

Lemma py_min_l a b : py_min a b <= a.
Proof.
  unfold py_min. destruct (decide (b < a)) as [H|H].
  - apply Qclt_le_weak, H.
  - apply Qcle_refl.
Qed.

Lemma py_min_r a b : py_min a b <= b.
Proof.
  unfold py_min. destruct (decide (b < a)) as [H|H].
  - apply Qcle_refl.
  - apply Qcnot_lt_le, H.
Qed.

Lemma py_min_cases a b : py_min a b = a \/ py_min a b = b.
Proof. unfold py_min. destruct (decide (b < a)); auto. Qed.

Lemma py_max_is_max a b : is_max (py_max a b) [a; b].
Proof.
  split.
  - destruct (py_max_cases a b) as [-> | ->]; simpl; auto.
  - repeat constructor; [apply py_max_l | apply py_max_r].
Qed.

Lemma is_max_unique m m' l : is_max m l -> is_max m' l -> m = m'.
Proof.
  intros [Hin Hall] [Hin' Hall'].
  rewrite List.Forall_forall in Hall, Hall'.
  apply Qcle_antisym; [apply Hall', Hin | apply Hall, Hin'].
Qed.

(** Folding [py_max] from [x] over [xs] yields the maximum of [x :: xs]. *)
Lemma py_max_seq_is_max xs : forall x, is_max (py_max_seq x xs) (x :: xs).
Proof.
  unfold py_max_seq.
  induction xs as [|y ys IH]; intros x; simpl.
  - split; [now left | repeat constructor; apply Qcle_refl].
  - destruct (IH (py_max x y)) as [Hin Hall].
    inversion Hall as [|? ? Hhd Htl]; subst.
    split.
    + destruct Hin as [Heq | Hin]; [|now right; right].
      rewrite <- Heq.
      destruct (py_max_cases x y) as [-> | ->]; simpl; auto.
    + constructor; [|constructor; [|exact Htl]].
      * eapply Qcle_trans; [apply py_max_l | exact Hhd].
      * eapply Qcle_trans; [apply py_max_r | exact Hhd].
Qed.

Lemma Qcmult_nonneg (a b : Qc) : 0 <= a -> 0 <= b -> 0 <= a * b.
Proof.
  intros Ha Hb.
  rewrite <- (Qcmult_0_l b).
  apply Qcmult_le_compat_r; assumption.
Qed.

Lemma Qcmult_le_mono (a b c d : Qc) :
  0 <= a -> a <= b -> 0 <= c -> c <= d -> a * c <= b * d.
Proof.
  intros Ha Hab Hc Hcd.
  apply Qcle_trans with (b * c).
  - apply Qcmult_le_compat_r; assumption.
  - rewrite (Qcmult_comm b c), (Qcmult_comm b d).
    apply Qcmult_le_compat_r; [assumption|].
    apply Qcle_trans with a; assumption.
Qed.

(** ** Direct contradiction *)

(** C2: two address pairs directly contradict exactly when they have the
    same category pair and exactly one of the two values differs; an
    address pair never contradicts itself, and pairs that differ on both
    values do not contradict. *)
Theorem directly_contradicts_iff :
  (forall c1a v1a c2a v2a c1b v1b c2b v2b : string,
      _directly_contradicts ((c1a, v1a), (c2a, v2a)) ((c1b, v1b), (c2b, v2b)) = true <->
      c1a = c1b /\ c2a = c2b /\
      ((v1a = v1b /\ v2a <> v2b) \/ (v2a = v2b /\ v1a <> v1b)))
  /\ (forall k : Key, _directly_contradicts k k = false)
  /\ (forall c1a v1a c2a v2a c1b v1b c2b v2b : string,
         v1a <> v1b -> v2a <> v2b ->
         _directly_contradicts ((c1a, v1a), (c2a, v2a)) ((c1b, v1b), (c2b, v2b)) = false).
Proof.
  split; [|split].
  - intros. unfold _directly_contradicts.
    repeat case_bool_decide; simpl; intuition congruence.
  - intros [[c1 v1] [c2 v2]]. unfold _directly_contradicts.
    repeat case_bool_decide; simpl; congruence.
  - intros. unfold _directly_contradicts.
    repeat case_bool_decide; simpl; congruence.
Qed.

Lemma directly_contradicts_iff_witness :
  _directly_contradicts (("Name", "Brooke"), ("House", "Blue"))
                        (("Name", "Alex"), ("House", "Blue")) = true
  /\ _directly_contradicts (("Name", "Alex"), ("House", "Red"))
                           (("Name", "Brooke"), ("House", "Blue")) = false.
Proof.
  destruct directly_contradicts_iff as (Hiff & _ & Hneither).
  split.
  - apply Hiff. split; [reflexivity|]. split; [reflexivity|].
    right. split; [reflexivity | discriminate].
  - apply Hneither; discriminate.
Defined.

Lemma directly_contradicts_sym (a b : Key) :
  _directly_contradicts a b = _directly_contradicts b a.
Proof.
  destruct a as [[c1a v1a] [c2a v2a]], b as [[c1b v1b] [c2b v2b]].
  unfold _directly_contradicts.
  repeat case_bool_decide; simpl; congruence.
Qed.

(** ** Path trust *)

Lemma index_loop_fold (d : Fact) (rest : list Fact) :
  forall (pre : list Fact) (t : Qc),
    fold_left (fun trust i => decay_step trust (nth i (pre ++ rest) d))
              (seq (length pre) (length rest)) t
    = fold_left decay_step rest t.
Proof.
  induction rest as [|r rest IH]; intros pre t; simpl; [reflexivity|].
  rewrite app_nth2 by lia. rewrite Nat.sub_diag. simpl.
  specialize (IH (pre ++ [r]) (decay_step t r)).
  rewrite <- app_assoc, length_app in IH. simpl in IH.
  rewrite Nat.add_1_r in IH. exact IH.
Qed.

Lemma path_trust_cons (f0 : Fact) (rest : list Fact) :
  _calculate_path_trust (f0 :: rest) = fold_left decay_step rest (trust_score f0).
Proof.
  unfold _calculate_path_trust.
  replace (length (f0 :: rest) - 1)%nat with (length rest) by (simpl; lia).
  apply (index_loop_fold f0 rest [f0]).
Qed.

Lemma path_trust_snoc (p : list Fact) (f : Fact) :
  p <> [] ->
  _calculate_path_trust (p ++ [f]) = decay_step (_calculate_path_trust p) f.
Proof.
  destruct p as [|f0 rest]; [congruence|]. intros _.
  rewrite <- app_comm_cons, !path_trust_cons, fold_left_app. reflexivity.
Qed.

(** C3: the path trust is the specified recurrence: 0 on the empty path,
    the first fact's trust score to start with, and for every further
    fact [decay = (score * trust) / 10000] followed by
    [trust = min(trust, score) * decay]; a single fact gives its own
    score. *)
Theorem calculate_path_trust_recurrence :
  _calculate_path_trust [] = qc 0
  /\ (forall f : Fact, _calculate_path_trust [f] = trust_score f)
  /\ (forall (f0 : Fact) (rest : list Fact),
         _calculate_path_trust (f0 :: rest)
         = fold_left
             (fun trust fi =>
                let decay := (trust_score fi * trust) / qc 10000 in
                py_min trust (trust_score fi) * decay)
             rest (trust_score f0))
  /\ (forall (p : list Fact) (f : Fact),
         p <> [] ->
         let trust := _calculate_path_trust p in
         let decay := (trust_score f * trust) / qc 10000 in
         _calculate_path_trust (p ++ [f]) = py_min trust (trust_score f) * decay).
Proof.
  split; [reflexivity|]. split; [reflexivity|]. split.
  - intros f0 rest. apply path_trust_cons.
  - intros p f Hp. simpl. rewrite path_trust_snoc by assumption. reflexivity.
Qed.

Lemma calculate_path_trust_recurrence_witness :
  _calculate_path_trust ([f90] ++ [f80])
  = py_min (qc 90) (qc 80) * ((qc 80 * qc 90) / qc 10000).
Proof.
  destruct calculate_path_trust_recurrence as (_ & _ & _ & Hsnoc).
  apply (Hsnoc [f90] f80). discriminate.
Defined.

Lemma qc_10000 : qc 100 * qc 100 = qc 10000.
Proof. apply Qc_is_canon. reflexivity. Qed.

Lemma inv_10000_nonneg : 0 <= / qc 10000.
Proof. unfold Qcle. vm_compute. discriminate. Qed.

Lemma div_10000_self : qc 10000 / qc 10000 = 1.
Proof. apply Qc_is_canon. reflexivity. Qed.

Lemma py_min_nonneg (a b : Qc) : 0 <= a -> 0 <= b -> 0 <= py_min a b.
Proof. intros Ha Hb. destruct (py_min_cases a b) as [-> | ->]; assumption. Qed.

(** One turn of the loop never raises the trust when both numbers are in
    the range 0..100. *)
Lemma decay_step_range (t : Qc) (f : Fact) :
  0 <= t -> t <= qc 100 -> in_range f ->
  0 <= decay_step t f /\ decay_step t f <= t.
Proof.
  intros Ht0 Ht100 [Hs0 Hs100]. rewrite qc_0 in Hs0.
  unfold decay_step. cbv zeta.
  set (s := trust_score f) in *.
  assert (Hd0 : 0 <= (s * t) / qc 10000).
  { unfold Qcdiv. apply Qcmult_nonneg; [|apply inv_10000_nonneg].
    apply Qcmult_nonneg; assumption. }
  assert (Hd1 : (s * t) / qc 10000 <= 1).
  { rewrite <- div_10000_self. unfold Qcdiv.
    apply Qcmult_le_compat_r; [|apply inv_10000_nonneg].
    rewrite <- qc_10000. apply Qcmult_le_mono; assumption. }
  split.
  - apply Qcmult_nonneg; [apply py_min_nonneg|]; assumption.
  - apply Qcle_trans with (t * 1); [|rewrite Qcmult_1_r; apply Qcle_refl].
    apply Qcmult_le_mono;
      [apply py_min_nonneg; assumption | apply py_min_l | assumption | assumption].
Qed.

Lemma fold_decay_range (rest : list Fact) :
  forall t : Qc,
    0 <= t -> t <= qc 100 -> Forall in_range rest ->
    0 <= fold_left decay_step rest t /\ fold_left decay_step rest t <= t.
Proof.
  induction rest as [|r rest IH]; intros t Ht0 Ht100 Hall; simpl.
  - split; [assumption | apply Qcle_refl].
  - inversion Hall as [|? ? Hr Hrest]; subst.
    destruct (decay_step_range t r Ht0 Ht100 Hr) as [H0 Hle].
    destruct (IH (decay_step t r) H0 (Qcle_trans _ _ _ Hle Ht100) Hrest) as [H0' Hle'].
    split; [assumption | eapply Qcle_trans; eassumption].
Qed.

Lemma path_trust_range (p : list Fact) :
  p <> [] -> Forall in_range p ->
  0 <= _calculate_path_trust p /\ _calculate_path_trust p <= qc 100.
Proof.
  destruct p as [|f0 rest]; [congruence|]. intros _ Hall.
  inversion Hall as [|? ? [H0 H100] Hrest]; subst.
  rewrite qc_0 in H0. rewrite path_trust_cons.
  destruct (fold_decay_range rest (trust_score f0) H0 H100 Hrest) as [Hlo Hhi].
  split; [assumption | eapply Qcle_trans; eassumption].
Qed.

Lemma decay_step_zero (t : Qc) (f : Fact) :
  trust_score f = qc 0 -> decay_step t f = qc 0.
Proof.
  intros Hf. unfold decay_step. cbv zeta. rewrite Hf, qc_0.
  unfold Qcdiv. rewrite Qcmult_0_l, Qcmult_0_l, Qcmult_0_r. reflexivity.
Qed.

(** Appending a fact to the empty path raises the path trust from 0 to
    the score of that fact. *)
Lemma append_to_empty_path_increases :
  Forall in_range [] /\ in_range f50
  /\ ~ (_calculate_path_trust ([] ++ [f50]) <= _calculate_path_trust []).
Proof.
  split; [constructor|]. split.
  - split; unfold Qcle; vm_compute; discriminate.
  - unfold Qcle. vm_compute. intros H. apply H. reflexivity.
Qed.

(** C6 (amended): on a non-empty path whose trust scores all lie in
    0..100, appending a fact with a score in 0..100 never increases the
    path trust; appending a fact of score 0 to a path, empty or not, whose
    trust scores all lie in 0..100 gives 0. *)
Theorem append_never_increases_path_trust :
  (forall (p : list Fact) (f : Fact),
      p <> [] -> Forall in_range p -> in_range f ->
      _calculate_path_trust (p ++ [f]) <= _calculate_path_trust p)
  /\ (forall (p : list Fact) (f : Fact),
         Forall in_range p -> trust_score f = qc 0 ->
         _calculate_path_trust (p ++ [f]) = qc 0).
Proof.
  split.
  - intros p f Hp Hall Hf.
    rewrite path_trust_snoc by assumption.
    destruct (path_trust_range p Hp Hall) as [H0 H100].
    apply (decay_step_range _ f H0 H100 Hf).
  - intros p f _ Hf. destruct p as [|f0 rest].
    + simpl. exact Hf.
    + rewrite path_trust_snoc by discriminate.
      apply decay_step_zero, Hf.
Qed.

Lemma append_never_increases_path_trust_witness :
  _calculate_path_trust ([f90] ++ [f80]) <= _calculate_path_trust [f90]
  /\ _calculate_path_trust ([f90] ++ [mkFact "Job" "Doctor" "Drink" "Tea" (qc 0)]) = qc 0.
Proof.
  destruct append_never_increases_path_trust as [Hmono Hzero].
  split.
  - apply Hmono.
    + discriminate.
    + repeat constructor; unfold Qcle; vm_compute; discriminate.
    + split; unfold Qcle; vm_compute; discriminate.
  - apply Hzero; [|reflexivity].
    repeat constructor; unfold Qcle; vm_compute; discriminate.
Defined.

(** ** The store *)

Lemma dict_set_keys (d : FactDatabase) (key : Key) (value : Fact) (k : Key) :
  In k (map fst (dict_set d key value)) <-> k = key \/ In k (map fst d).
Proof.
  induction d as [|[k0 v0] d IH]; simpl.
  - intuition congruence.
  - destruct (decide (k0 = key)) as [->|Hne]; simpl; [intuition congruence|].
    rewrite IH. intuition congruence.
Qed.

Lemma dict_set_NoDup (d : FactDatabase) (key : Key) (value : Fact) :
  List.NoDup (map fst d) -> List.NoDup (map fst (dict_set d key value)).
Proof.
  induction d as [|[k0 v0] d IH]; simpl; intros Hnd.
  - constructor; [intros [] | constructor].
  - inversion Hnd as [|? ? Hnotin Hnd']; subst.
    destruct (decide (k0 = key)) as [->|Hne]; simpl.
    + constructor; assumption.
    + constructor; [|apply IH, Hnd'].
      rewrite dict_set_keys. intros [Heq | Hin]; [congruence | contradiction].
Qed.

Lemma dict_set_Forall (P : Key * Fact -> Prop) (d : FactDatabase) (key : Key) (value : Fact) :
  P (key, value) -> Forall P d -> Forall P (dict_set d key value).
Proof.
  intros Hnew. induction d as [|[k0 v0] d IH]; simpl; intros Hall.
  - repeat constructor; assumption.
  - inversion Hall as [|? ? Hhd Htl]; subst.
    destruct (decide (k0 = key)) as [->|Hne]; constructor; auto.
Qed.

Lemma dict_get_set_eq (d : FactDatabase) (key : Key) (value : Fact) :
  dict_get (dict_set d key value) key = Some value.
Proof.
  induction d as [|[k0 v0] d IH]; simpl.
  - destruct (decide (key = key)); congruence.
  - destruct (decide (k0 = key)) as [->|Hne]; simpl.
    + destruct (decide (key = key)); congruence.
    + destruct (decide (k0 = key)); congruence.
Qed.

Lemma dict_get_set_ne (d : FactDatabase) (key : Key) (value : Fact) (k : Key) :
  k <> key -> dict_get (dict_set d key value) k = dict_get d k.
Proof.
  intros Hk. induction d as [|[k0 v0] d IH]; simpl.
  - destruct (decide (key = k)); congruence.
  - destruct (decide (k0 = key)) as [->|Hne]; simpl.
    + destruct (decide (key = k)); congruence.
    + destruct (decide (k0 = k)); congruence.
Qed.

Lemma dict_get_In (d : FactDatabase) (k : Key) (f : Fact) :
  List.NoDup (map fst d) -> In (k, f) d -> dict_get d k = Some f.
Proof.
  induction d as [|[k0 v0] d IH]; simpl; intros Hnd Hin; [contradiction|].
  inversion Hnd as [|? ? Hnotin Hnd']; subst.
  destruct Hin as [Heq | Hin].
  - inversion Heq; subst. destruct (decide (k = k)); congruence.
  - destruct (decide (k0 = k)) as [->|Hne]; [|auto].
    exfalso. apply Hnotin. apply (in_map fst _ _ Hin).
Qed.

Lemma add_fact_ok (db : FactDatabase) (fact : Fact) :
  store_ok db -> store_ok (add_fact db fact).
Proof.
  intros [Hnd Hkeys]. split.
  - apply dict_set_NoDup, Hnd.
  - apply dict_set_Forall; [reflexivity | assumption].
Qed.

(** C8: the store never holds two facts for one ordered address pair, and
    every method keeps it so: [add_fact] files the fact under its own
    address pair, replacing what was there, and leaves every other entry
    as it was; the queries give back the store they were given. *)
Theorem store_invariant :
  store_ok empty_db
  /\ (forall db : FactDatabase,
         store_ok db ->
         forall e1 e2 : Key * Fact,
           In e1 db -> In e2 db -> key_of_fact (snd e1) = key_of_fact (snd e2) -> e1 = e2)
  /\ (forall (db : FactDatabase) (req : Request),
         store_ok db ->
         let db' := snd (call req db) in
         store_ok db' /\
         match req with
         | AddFact fact =>
             dict_get db' (key_of_fact fact) = Some fact
             /\ forall k : Key, k <> key_of_fact fact -> dict_get db' k = dict_get db k
         | _ => db' = db
         end).
Proof.
  split; [|split].
  - split; constructor.
  - intros db [Hnd Hkeys] [k1 f1] [k2 f2] H1 H2 Hk. simpl in Hk.
    rewrite List.Forall_forall in Hkeys.
    pose proof (Hkeys _ H1) as E1. pose proof (Hkeys _ H2) as E2.
    simpl in E1, E2. assert (Hk12 : k2 = k1) by congruence.
    rewrite Hk12 in H2 |- *.
    pose proof (dict_get_In db k1 f1 Hnd H1) as G1.
    pose proof (dict_get_In db k1 f2 Hnd H2) as G2.
    congruence.
  - intros db req Hok. destruct req; simpl; try (split; [assumption | reflexivity]).
    split; [apply add_fact_ok, Hok|]. split.
    + apply dict_get_set_eq.
    + intros k Hk. apply dict_get_set_ne, Hk.
Qed.

(** ** The path search *)

Lemma fold_left_pointwise {A B : Type} (f g : A -> B -> A) (l : list B) :
  (forall a b, f a b = g a b) ->
  forall a, fold_left f l a = fold_left g l a.
Proof.
  intros Hfg. induction l as [|b l IH]; intros a; simpl; [reflexivity|].
  rewrite Hfg. apply IH.
Qed.

(** Once the fuel covers the remaining depth, more fuel changes nothing:
    the search stops on [depth > 3], never on the fuel. *)
Lemma explore_path_fuel (facts : FactDatabase) (target_val target_cat : string) :
  forall (fuel depth : nat) current_val current_cat current_path st,
    (5 <= fuel + depth)%nat ->
    explore_path (S fuel) facts current_val current_cat target_val target_cat
                 current_path depth st
    = explore_path fuel facts current_val current_cat target_val target_cat
                   current_path depth st.
Proof.
  induction fuel as [|fuel IH]; intros depth cv cc cp st Hfuel.
  - simpl. destruct (3 <? depth)%nat eqn:Hd; [reflexivity|].
    apply Nat.ltb_ge in Hd. lia.
  - cbn [explore_path].
    destruct (3 <? depth)%nat eqn:Hd; [reflexivity|].
    apply fold_left_pointwise. intros st' [key fact].
    destruct (bool_decide (key ∈ visited st')); [reflexivity|].
    destruct (connects_to_current fact cv cc) as [[next_val next_cat]|]; [|reflexivity].
    destruct (bool_decide (next_cat = target_cat) && bool_decide (next_val = target_val));
      [reflexivity|].
    rewrite <- (IH (depth + 1)%nat) by lia. reflexivity.
Qed.

Lemma explore_path_enough_fuel (facts : FactDatabase) (target_val target_cat : string)
    (extra : nat) current_val current_cat current_path st :
  explore_path (5 + extra) facts current_val current_cat target_val target_cat
               current_path 0 st
  = explore_path 5 facts current_val current_cat target_val target_cat current_path 0 st.
Proof.
  induction extra as [|extra IH].
  - rewrite Nat.add_0_r. reflexivity.
  - rewrite Nat.add_succ_r, explore_path_fuel by lia. exact IH.
Qed.

Lemma add_then_remove (key : Key) (s : gset Key) :
  key ∉ s -> ({[key]} ∪ s) ∖ {[key]} = s.
Proof.
  intros Hk. apply set_eq. intros x.
  rewrite elem_of_difference, elem_of_union, !elem_of_singleton.
  split.
  - intros [[Hx | Hx] Hne]; [contradiction | exact Hx].
  - intros Hx. split; [right; exact Hx | intros ->; contradiction].
Qed.

(** The search gives [visited] back as it found it: every key added before
    a hop is removed after it, and it is still in the set at that point,
    so that [visited.remove(key)] finds its key. *)
Lemma explore_path_restores_visited (facts : FactDatabase) (target_val target_cat : string) :
  forall (fuel : nat) current_val current_cat current_path depth st,
    visited (explore_path fuel facts current_val current_cat target_val target_cat
                          current_path depth st)
    = visited st.
Proof.
  induction fuel as [|fuel IH]; intros cv cc cp d st; [reflexivity|].
  cbn [explore_path].
  destruct (3 <? d)%nat; [reflexivity|].
  match goal with
  | |- visited (fold_left ?body facts st) = _ => set (loop := body)
  end.
  generalize facts at 1 as l. intros l. revert st.
  induction l as [|[key fact] l IHl]; intros st; [reflexivity|].
  cbn [fold_left]. rewrite IHl. unfold loop. cbv beta iota.
  case_bool_decide as Hvis; [reflexivity|].
  destruct (connects_to_current fact cv cc) as [[nv nc]|]; [|reflexivity].
  cbn [visited].
  pose proof (add_then_remove key (visited st) Hvis) as Hback.
  destruct (bool_decide (nc = target_cat) && bool_decide (nv = target_val)).
  - cbn [seen_paths paths visited]. destruct (bool_decide _); exact Hback.
  - rewrite IH. exact Hback.
Qed.

Lemma connects_to_current_leads (fact : Fact) (cv cc nv nc : string) :
  connects_to_current fact cv cc = Some (nv, nc) -> leads fact (cc, cv) (nc, nv).
Proof.
  unfold connects_to_current, leads, node1, node2.
  repeat case_bool_decide; simpl; intros Hc; inversion Hc; subst;
    intuition congruence.
Qed.

Lemma walk_stored (db : FactDatabase) (a b : Node) (p : list Fact) :
  walk db a b p -> Forall (fun f => exists k, In (k, f) db) p.
Proof.
  induction 1 as [|b c p k f Hw IH Hin Hl]; [constructor|].
  apply Forall_app. split; [exact IH|].
  constructor; [exists k; exact Hin | constructor].
Qed.

Section ExploreInvariant.

Variable facts : FactDatabase.
Variables target_val target_cat : string.

(** [Inv current_val current_cat current_path depth] is assumed of the
    arguments of a call, [Rec] is established for every recorded path. *)
Variable Inv : string -> string -> list Fact -> nat -> Prop.
Variable Rec : list Fact -> Prop.

Hypothesis Inv_step :
  forall cv cc cp d k f nv nc,
    Inv cv cc cp d -> (d <= 3)%nat -> In (k, f) facts ->
    connects_to_current f cv cc = Some (nv, nc) ->
    Inv nv nc (cp ++ [f]) (d + 1)%nat
    /\ (nc = target_cat -> nv = target_val -> Rec (cp ++ [f])).

Lemma explore_path_invariant :
  forall fuel cv cc cp d st,
    Inv cv cc cp d -> Forall Rec (paths st) ->
    Forall Rec (paths (explore_path fuel facts cv cc target_val target_cat cp d st)).
Proof.
  induction fuel as [|fuel IH]; intros cv cc cp d st HI Hst; [exact Hst|].
  cbn [explore_path].
  destruct (3 <? d)%nat eqn:Hd; [exact Hst|].
  apply Nat.ltb_ge in Hd.
  match goal with
  | |- Forall Rec (paths (fold_left ?body facts st)) => set (loop := body)
  end.
  cut (forall l, incl l facts -> forall st', Forall Rec (paths st') ->
                 Forall Rec (paths (fold_left loop l st'))).
  { intros Hloop. apply Hloop; [apply incl_refl | exact Hst]. }
  clear st Hst.
  induction l as [|[key fact] l IHl]; intros Hl st Hst; [exact Hst|].
  cbn [fold_left]. apply IHl; [eapply incl_cons_inv, Hl|].
  unfold loop. cbv beta iota.
  destruct (bool_decide (key ∈ visited st)); [exact Hst|].
  destruct (connects_to_current fact cv cc) as [[nv nc]|] eqn:Hc; [|exact Hst].
  destruct (Inv_step cv cc cp d key fact nv nc HI Hd
              (Hl _ (or_introl eq_refl)) Hc) as [HI' HR].
  cbn [paths].
  destruct (bool_decide (nc = target_cat)) eqn:Ec;
    [destruct (bool_decide (nv = target_val)) eqn:Ev|]; cbn [andb].
  - apply bool_decide_eq_true in Ec, Ev.
    cbn [seen_paths paths visited].
    destruct (bool_decide _); cbn [paths]; [exact Hst|].
    apply Forall_app. split; [exact Hst|].
    constructor; [apply HR; assumption | constructor].
  - apply IH; [exact HI' | exact Hst].
  - apply IH; [exact HI' | exact Hst].
Qed.

End ExploreInvariant.

(** Every path found by the search has between one and four facts and is
    a walk over stored facts from the first node of the key to the
    second. *)
Lemma find_supporting_paths_sound (db : FactDatabase) (n1 n2 : Node) (p : list Fact) :
  In p (_find_supporting_paths db (n1, n2)) ->
  (1 <= length p <= 4)%nat /\ walk db n1 n2 p.
Proof.
  destruct n1 as [cat1 val1], n2 as [cat2 val2].
  unfold _find_supporting_paths. revert p. apply List.Forall_forall.
  apply explore_path_invariant
    with (Inv := fun cv cc cp d =>
                   (length cp <= d)%nat /\ walk db (cat1, val1) (cc, cv) cp).
  - intros cv cc cp d k f nv nc [Hlen Hw] Hd Hin Hc.
    pose proof (walk_snoc db _ _ _ _ k f Hw Hin (connects_to_current_leads _ _ _ _ _ Hc))
      as Hw'.
    split; [|intros -> ->]; (split; [rewrite length_app; simpl; lia | exact Hw']).
  - split; [simpl; lia | constructor].
  - constructor.
Qed.

(** Where the stored facts offer no walk between the two nodes, the
    search finds nothing. *)
Lemma no_walk_no_supporting_path (db : FactDatabase) (n1 n2 : Node) :
  (forall p : list Fact, p <> [] -> ~ walk db n1 n2 p) ->
  _find_supporting_paths db (n1, n2) = [].
Proof.
  intros Hnone.
  destruct (_find_supporting_paths db (n1, n2)) as [|p ps] eqn:E; [reflexivity|].
  assert (Hin : In p (_find_supporting_paths db (n1, n2))) by (rewrite E; now left).
  apply find_supporting_paths_sound in Hin as [[Hlen _] Hw].
  exfalso. apply (Hnone p); [|exact Hw].
  intros ->. simpl in Hlen. lia.
Qed.

(** C4: no path returned by the search has more than four facts, and a
    path of exactly four facts is returned for some store: the test
    [depth > 3] is made after the hop has been appended. *)
Theorem supporting_paths_at_most_four_facts :
  (forall (db : FactDatabase) (key : Key) (p : list Fact),
      In p (_find_supporting_paths db key) -> (length p <= 4)%nat)
  /\ (exists (db : FactDatabase) (key : Key) (p : list Fact),
         In p (_find_supporting_paths db key) /\ length p = 4%nat).
Proof.
  split.
  - intros db [n1 n2] p Hin.
    destruct (find_supporting_paths_sound db n1 n2 p Hin) as [[_ Hle] _]. exact Hle.
  - exists chain4, (("N", "a"), ("N", "e")), (map snd chain4).
    split; [|reflexivity]. vm_compute. left. reflexivity.
Qed.

Lemma supporting_paths_at_most_four_facts_witness :
  In (map snd chain4) (_find_supporting_paths chain4 (("N", "a"), ("N", "e")))
  /\ (length (map snd chain4) <= 4)%nat.
Proof.
  assert (Hin : In (map snd chain4)
                   (_find_supporting_paths chain4 (("N", "a"), ("N", "e"))))
    by (vm_compute; left; reflexivity).
  split; [exact Hin|].
  exact (proj1 supporting_paths_at_most_four_facts chain4 _ _ Hin).
Defined.

(** ** Indirect contradictions *)

Lemma find_all_connections_one_hop (db : FactDatabase) (category value : string) (x : Node) :
  x ∈ _find_all_connections db category value -> one_hop db (category, value) x.
Proof.
  unfold _find_all_connections.
  match goal with
  | |- x ∈ fold_left ?body db ∅ -> _ => set (loop := body)
  end.
  cut (forall l acc, incl l db -> x ∈ fold_left loop l acc ->
                     x ∈ acc \/ one_hop db (category, value) x).
  { intros Hloop Hx. destruct (Hloop db ∅ (incl_refl _) Hx) as [Hin | Hhop];
      [set_solver | exact Hhop]. }
  induction l as [|[key fact] l IHl]; intros acc Hl Hx; [left; exact Hx|].
  cbn [fold_left] in Hx.
  destruct (incl_cons_inv Hl) as [Hstored Hl'].
  destruct (IHl _ Hl' Hx) as [Hin | Hhop]; [|right; exact Hhop].
  unfold loop in Hin. cbv beta iota in Hin.
  repeat case_bool_decide; cbn [andb] in Hin;
    try (left; exact Hin);
    (apply elem_of_union in Hin as [Hnew | Hold]; [|left; exact Hold]);
    apply elem_of_singleton in Hnew; subst x;
    right; exists key, fact; (split; [exact Hstored|]);
    unfold leads, node1, node2; intuition congruence.
Qed.

Lemma leads_to_contradiction_last (path : list Fact) (fact_key : Key) :
  _leads_to_contradiction path fact_key = true ->
  exists last_fact : Fact,
    last path = Some last_fact
    /\ _directly_contradicts (key_of_fact last_fact) fact_key = true.
Proof.
  unfold _leads_to_contradiction.
  destruct (last path) as [lf|]; [|discriminate].
  intros H. exists lf. split; [reflexivity | exact H].
Qed.

Lemma contradicting_paths_from_sound (db : FactDatabase) (cat val : string)
    (connections : gset Node) (fact_key : Key) (p : list Fact) :
  In p (contradicting_paths_from db cat val connections fact_key) ->
  exists x : Node,
    x ∈ connections
    /\ In p (_find_supporting_paths db ((cat, val), x))
    /\ _leads_to_contradiction p fact_key = true.
Proof.
  unfold contradicting_paths_from. rewrite in_flat_map.
  intros [[ccat cval] [Hx Hp]].
  apply filter_In in Hp as [Hp Hlead].
  exists (ccat, cval). split; [|split; assumption].
  apply elem_of_elements, list_elem_of_In, Hx.
Qed.

Lemma indirect_contradictions_sound (db : FactDatabase) (c1 v1 c2 v2 : string)
    (p : list Fact) :
  In p (_find_indirect_contradictions db ((c1, v1), (c2, v2))) ->
  exists (endpoint x : Node) (last_fact : Fact),
    (endpoint = (c1, v1) \/ endpoint = (c2, v2))
    /\ one_hop db endpoint x
    /\ In p (_find_supporting_paths db (endpoint, x))
    /\ last p = Some last_fact
    /\ _directly_contradicts (key_of_fact last_fact) ((c1, v1), (c2, v2)) = true.
Proof.
  unfold _find_indirect_contradictions. rewrite in_app_iff.
  intros [H | H];
    apply contradicting_paths_from_sound in H as (x & Hx & Hp & Hlead);
    apply find_all_connections_one_hop in Hx;
    apply leads_to_contradiction_last in Hlead as (lf & Hlast & Hcontra).
  - exists (c1, v1), x, lf. auto 6.
  - exists (c2, v2), x, lf. auto 6.
Qed.

Lemma last_snoc_inv (p : list Fact) (f : Fact) :
  last p = Some f -> exists q, p = q ++ [f].
Proof.
  intros H. destruct p as [|f0 p] using rev_ind; [discriminate|].
  rewrite last_snoc in H. inversion H; subst. eauto.
Qed.

(** C5: every path returned by [_find_indirect_contradictions] is
    non-empty, its last fact's address pair directly contradicts the
    candidate, and it is a supporting path (found by the search, hence a
    walk over stored facts) from one of the two nodes of the candidate to
    a node one hop away from that node. *)
Theorem indirect_contradictions_end_in_contradiction
    (db : FactDatabase) (c1 v1 c2 v2 : string) (p : list Fact) :
  In p (_find_indirect_contradictions db ((c1, v1), (c2, v2))) ->
  p <> []
  /\ (exists last_fact : Fact,
         last p = Some last_fact
         /\ _directly_contradicts (key_of_fact last_fact) ((c1, v1), (c2, v2)) = true)
  /\ (exists endpoint x : Node,
         (endpoint = (c1, v1) \/ endpoint = (c2, v2))
         /\ one_hop db endpoint x
         /\ In p (_find_supporting_paths db (endpoint, x))
         /\ walk db endpoint x p).
Proof.
  intros Hin.
  destruct (indirect_contradictions_sound db c1 v1 c2 v2 p Hin)
    as (endpoint & x & lf & Hend & Hhop & Hp & Hlast & Hcontra).
  split; [intros ->; discriminate|].
  split; [exists lf; auto|].
  exists endpoint, x. repeat (split; [assumption|]).
  apply (find_supporting_paths_sound db endpoint x p Hp).
Qed.

Lemma indirect_contradictions_end_in_contradiction_witness :
  [brooke_teacher] <> []
  /\ (exists last_fact : Fact,
         last [brooke_teacher] = Some last_fact
         /\ _directly_contradicts (key_of_fact last_fact)
              (("Name", "Alex"), ("Job", "Teacher")) = true)
  /\ (exists endpoint x : Node,
         (endpoint = ("Name", "Alex") \/ endpoint = ("Job", "Teacher"))
         /\ one_hop fixture endpoint x
         /\ In [brooke_teacher] (_find_supporting_paths fixture (endpoint, x))
         /\ walk fixture endpoint x [brooke_teacher]).
Proof.
  apply (indirect_contradictions_end_in_contradiction
           fixture "Name" "Alex" "Job" "Teacher" [brooke_teacher]).
  vm_compute. left. reflexivity.
Defined.

(** ** The trust of a candidate *)

Lemma contradicting_facts_In (db : FactDatabase) (key : Key) (f : Fact) :
  In f (contradicting_facts db key) <->
  exists k : Key, In (k, f) db /\ _directly_contradicts key k = true.
Proof.
  unfold contradicting_facts. rewrite in_flat_map. split.
  - intros [[k f'] [Hin Hf]].
    destruct (_directly_contradicts key k) eqn:Hc; [|contradiction].
    destruct Hf as [-> | []]. exists k. auto.
  - intros [k [Hin Hc]]. exists (k, f). split; [exact Hin|].
    rewrite Hc. now left.
Qed.

Lemma contradicting_facts_nil (db : FactDatabase) (key : Key) :
  contradicting_facts db key = [] <->
  (forall (k : Key) (f : Fact), In (k, f) db -> _directly_contradicts key k = false).
Proof.
  split.
  - intros Hnil k f Hin.
    destruct (_directly_contradicts key k) eqn:Hc; [|reflexivity].
    assert (Hf : In f (contradicting_facts db key))
      by (apply contradicting_facts_In; eauto).
    rewrite Hnil in Hf. contradiction.
  - intros Hnone. destruct (contradicting_facts db key) as [|f fs] eqn:Hc; [reflexivity|].
    assert (Hf : In f (contradicting_facts db key)) by (rewrite Hc; now left).
    apply contradicting_facts_In in Hf as [k [Hin Hk]].
    rewrite (Hnone k f Hin) in Hk. discriminate.
Qed.

Lemma get_fact_trust_contradicted (db : FactDatabase) (c1 v1 c2 v2 : string)
    (f : Fact) (fs : list Fact) :
  contradicting_facts db ((c1, v1), (c2, v2)) = f :: fs ->
  get_fact_trust db c1 v1 c2 v2
  = py_max (qc 0) (qc 100 - py_max_seq (trust_score f) (map trust_score fs)).
Proof. intros Hc. unfold get_fact_trust. cbv zeta. rewrite Hc. reflexivity. Qed.

Lemma fold_max_support (ps : list (list Fact)) :
  forall x : Qc,
    fold_left (fun max_support path => py_max max_support (_calculate_path_trust path)) ps x
    = py_max_seq x (map _calculate_path_trust ps).
Proof.
  unfold py_max_seq. induction ps as [|p ps IH]; intros x; simpl; [reflexivity|].
  apply IH.
Qed.

Lemma is_max_cons (x m : Qc) (l : list Qc) :
  is_max m l -> is_max (py_max x m) (x :: l).
Proof.
  intros [Hin Hall]. split.
  - destruct (py_max_cases x m) as [-> | ->]; [now left | now right].
  - constructor; [apply py_max_l|].
    eapply List.Forall_impl; [|exact Hall].
    intros y Hy. simpl in Hy. eapply Qcle_trans; [exact Hy | apply py_max_r].
Qed.

Lemma py_max_seq_cons (x y : Qc) (ys : list Qc) :
  py_max_seq x (y :: ys) = py_max x (py_max_seq y ys).
Proof.
  apply (is_max_unique _ _ (x :: y :: ys)).
  - apply py_max_seq_is_max.
  - apply is_max_cons, py_max_seq_is_max.
Qed.

Lemma get_fact_trust_supported (db : FactDatabase) (c1 v1 c2 v2 : string)
    (p : list Fact) (ps : list (list Fact)) :
  contradicting_facts db ((c1, v1), (c2, v2)) = [] ->
  _find_supporting_paths db ((c1, v1), (c2, v2)) = p :: ps ->
  get_fact_trust db c1 v1 c2 v2
  = py_max (qc 0)
      (py_max_seq (_calculate_path_trust p) (map _calculate_path_trust ps)).
Proof.
  intros Hc Hp. unfold get_fact_trust. cbv zeta. rewrite Hc, Hp.
  rewrite fold_max_support. apply py_max_seq_cons.
Qed.

Lemma get_fact_trust_neutral (db : FactDatabase) (c1 v1 c2 v2 : string) :
  contradicting_facts db ((c1, v1), (c2, v2)) = [] ->
  _find_supporting_paths db ((c1, v1), (c2, v2)) = [] ->
  get_fact_trust db c1 v1 c2 v2 = qc 50.
Proof. intros Hc Hp. unfold get_fact_trust. cbv zeta. rewrite Hc, Hp. reflexivity. Qed.








(** ** The neutral default *)

Lemma no_indirect_without_direct (db : FactDatabase) (c1 v1 c2 v2 : string) :
  store_ok db ->
  (forall (k : Key) (f : Fact),
      In (k, f) db -> _directly_contradicts ((c1, v1), (c2, v2)) k = false) ->
  _find_indirect_contradictions db ((c1, v1), (c2, v2)) = [].
Proof.
  intros [_ Hkeys] Hnone.
  destruct (_find_indirect_contradictions db ((c1, v1), (c2, v2))) as [|p ps] eqn:E;
    [reflexivity|].
  exfalso.
  assert (Hin : In p (_find_indirect_contradictions db ((c1, v1), (c2, v2))))
    by (rewrite E; now left).
  apply indirect_contradictions_sound in Hin
    as (endpoint & x & lf & _ & _ & Hp & Hlast & Hcontra).
  apply find_supporting_paths_sound in Hp as [_ Hw].
  apply walk_stored in Hw.
  apply last_snoc_inv in Hlast as [q ->].
  apply Forall_app in Hw as [_ Hlf].
  inversion Hlf as [|? ? [k Hin] _]; subst.
  rewrite List.Forall_forall in Hkeys. specialize (Hkeys _ Hin). simpl in Hkeys.
  rewrite directly_contradicts_sym, <- Hkeys, (Hnone k lf Hin) in Hcontra.
  discriminate.
Qed.

(** C7: on the empty store [get_fact_trust] is 50 for every input, and
    the three lists of [analyze_fact_relationships] are empty; for
    any store and any four strings, the empty ones included, if no stored
    fact directly contradicts the candidate and the search finds no
    supporting path, [get_fact_trust] is 50 and the three lists of
    [analyze_fact_relationships] are empty. *)
Theorem neutral_default :
  (forall c1 v1 c2 v2 : string,
      get_fact_trust empty_db c1 v1 c2 v2 = qc 50
      /\ analyze_fact_relationships empty_db c1 v1 c2 v2 = mkRelationships [] [] [])
  /\ (forall (db : FactDatabase) (c1 v1 c2 v2 : string),
         store_ok db ->
         (forall (k : Key) (f : Fact),
             In (k, f) db -> _directly_contradicts ((c1, v1), (c2, v2)) k = false) ->
         _find_supporting_paths db ((c1, v1), (c2, v2)) = [] ->
         get_fact_trust db c1 v1 c2 v2 = qc 50
         /\ analyze_fact_relationships db c1 v1 c2 v2 = mkRelationships [] [] []).
Proof.
  split.
  - intros. split; reflexivity.
  - intros db c1 v1 c2 v2 Hok Hnone Hp.
    pose proof (no_indirect_without_direct db c1 v1 c2 v2 Hok Hnone) as Hind.
    apply contradicting_facts_nil in Hnone.
    split; [apply get_fact_trust_neutral; assumption|].
    unfold analyze_fact_relationships. cbv zeta.
    rewrite Hnone, Hp, Hind. reflexivity.
Qed.

Lemma fixture_ok : store_ok fixture.
Proof.
  unfold fixture. cbn [fold_left].
  repeat apply add_fact_ok. split; constructor.
Qed.

Lemma neutral_default_witness :
  get_fact_trust fixture "" "" "Pet" "Dog" = qc 50
  /\ analyze_fact_relationships fixture "" "" "Pet" "Dog" = mkRelationships [] [] [].
Proof.
  apply (proj2 neutral_default fixture "" "" "Pet" "Dog").
  - exact fixture_ok.
  - apply contradicting_facts_nil. vm_compute. reflexivity.
  - vm_compute. reflexivity.
Defined.

Lemma store_invariant_witness :
  store_ok (add_fact fixture doctor_coffee_75)
  /\ dict_get (add_fact fixture doctor_coffee_75) (key_of_fact doctor_coffee_75)
     = Some doctor_coffee_75
  /\ (forall k : Key,
         k <> key_of_fact doctor_coffee_75 ->
         dict_get (add_fact fixture doctor_coffee_75) k = dict_get fixture k).
Proof.
  exact (proj2 (proj2 store_invariant) fixture (AddFact doctor_coffee_75) fixture_ok).
Defined.

(** ** The worked puzzle *)

(** C9: after the two further [add_fact]s on the five-fact fixture, the
    second of which replaces the stored fact Job=Doctor - Drink=Coffee,
    the analysis of Name=Alex - Job=Doctor has exactly two supporting
    entries. *)
Theorem test_multiple_paths :
  dict_get fixture (key_of_fact doctor_coffee_75)
  = Some doctor_coffee_70
  /\ length multiple_paths_db = 6%nat
  /\ length (supporting_facts
               (analyze_fact_relationships multiple_paths_db "Name" "Alex" "Job" "Doctor"))
     = 2%nat.
Proof. repeat split; vm_compute; reflexivity. Qed.

(** ** The scalar trust and the analysis *)




(** * Further properties *)

(** ** The loop of the path search *)

Lemma explore_path_unfold (fuel : nat) (facts : FactDatabase)
    (cv cc tv tc : string) (cp : list Fact) (d : nat) (st : SearchState) :
  explore_path (S fuel) facts cv cc tv tc cp d st
  = if (3 <? d)%nat then st
    else fold_left (hop fuel facts cv cc tv tc cp d) facts st.
Proof. reflexivity. Qed.

Lemma hop_visited (fuel : nat) (facts : FactDatabase)
    (cv cc tv tc : string) (cp : list Fact) (d : nat) (st : SearchState)
    (entry : Key * Fact) :
  visited (hop fuel facts cv cc tv tc cp d st entry) = visited st.
Proof.
  destruct entry as [key fact]. unfold hop.
  case_bool_decide as Hvis; [reflexivity|].
  destruct (connects_to_current fact cv cc) as [[nv nc]|]; [|reflexivity].
  cbn [visited].
  pose proof (add_then_remove key (visited st) Hvis) as Hback.
  destruct (bool_decide (nc = tc) && bool_decide (nv = tv)).
  - cbn [seen_paths paths visited]. destruct (bool_decide _); exact Hback.
  - rewrite explore_path_restores_visited. exact Hback.
Qed.

Lemma fold_hop_visited (fuel : nat) (facts : FactDatabase)
    (cv cc tv tc : string) (cp : list Fact) (d : nat) (l : list (Key * Fact)) :
  forall st : SearchState,
    visited (fold_left (hop fuel facts cv cc tv tc cp d) l st) = visited st.
Proof.
  induction l as [|e l IH]; intros st; [reflexivity|].
  cbn [fold_left]. rewrite IH. apply hop_visited.
Qed.

Section ExploreState.

Variable facts : FactDatabase.
Variables target_val target_cat : string.

(** [Keep] is a property of the recorded paths and of [seen_paths] that
    recording a path with a new edge set does not break. *)
Variable Keep : list (list Fact) -> gset (gset Key) -> Prop.

Hypothesis Keep_record :
  forall (ps : list (list Fact)) (seen : gset (gset Key)) (new_path : list Fact),
    Keep ps seen -> edge_set new_path ∉ seen ->
    Keep (ps ++ [new_path]) ({[edge_set new_path]} ∪ seen).

Lemma explore_path_keeps :
  forall fuel cv cc cp d st,
    Keep (paths st) (seen_paths st) ->
    Keep (paths (explore_path fuel facts cv cc target_val target_cat cp d st))
         (seen_paths (explore_path fuel facts cv cc target_val target_cat cp d st)).
Proof.
  induction fuel as [|fuel IH]; intros cv cc cp d st Hst; [exact Hst|].
  rewrite explore_path_unfold.
  destruct (3 <? d)%nat; [exact Hst|].
  generalize facts at 2 4 as l. intros l. revert st Hst.
  induction l as [|[key fact] l IHl]; intros st Hst; [exact Hst|].
  cbn [fold_left]. apply IHl. unfold hop.
  destruct (bool_decide (key ∈ visited st)); [exact Hst|].
  destruct (connects_to_current fact cv cc) as [[nv nc]|]; [|exact Hst].
  cbn [paths seen_paths].
  destruct (bool_decide (nc = target_cat) && bool_decide (nv = target_val)).
  - cbn [seen_paths paths visited].
    case_bool_decide as Hseen; cbn [paths seen_paths]; [exact Hst|].
    apply (Keep_record _ _ (cp ++ [fact]) Hst Hseen).
  - apply IH. exact Hst.
Qed.

Lemma hop_keeps fuel cv cc cp d st entry :
  Keep (paths st) (seen_paths st) ->
  Keep (paths (hop fuel facts cv cc target_val target_cat cp d st entry))
       (seen_paths (hop fuel facts cv cc target_val target_cat cp d st entry)).
Proof.
  intros Hst. destruct entry as [key fact]. unfold hop.
  destruct (bool_decide (key ∈ visited st)); [exact Hst|].
  destruct (connects_to_current fact cv cc) as [[nv nc]|]; [|exact Hst].
  cbn [paths seen_paths].
  destruct (bool_decide (nc = target_cat) && bool_decide (nv = target_val)).
  - cbn [seen_paths paths visited].
    case_bool_decide as Hseen; cbn [paths seen_paths]; [exact Hst|].
    apply (Keep_record _ _ (cp ++ [fact]) Hst Hseen).
  - apply explore_path_keeps. exact Hst.
Qed.

Lemma fold_hop_keeps fuel cv cc cp d l :
  forall st,
    Keep (paths st) (seen_paths st) ->
    Keep (paths (fold_left (hop fuel facts cv cc target_val target_cat cp d) l st))
         (seen_paths (fold_left (hop fuel facts cv cc target_val target_cat cp d) l st)).
Proof.
  induction l as [|e l IH]; intros st Hst; [exact Hst|].
  cbn [fold_left]. apply IH, hop_keeps, Hst.
Qed.

End ExploreState.

Lemma seen_paths_grow (facts : FactDatabase) (tv tc : string) (x : gset Key)
    fuel cv cc cp d st :
  x ∈ seen_paths st ->
  x ∈ seen_paths (explore_path fuel facts cv cc tv tc cp d st).
Proof.
  apply (explore_path_keeps facts tv tc (fun _ seen => x ∈ seen)).
  intros ps seen np Hx _. apply elem_of_union. right. exact Hx.
Qed.

Lemma fold_hop_seen_grow (facts : FactDatabase) (tv tc : string) (x : gset Key)
    fuel cv cc cp d l st :
  x ∈ seen_paths st ->
  x ∈ seen_paths (fold_left (hop fuel facts cv cc tv tc cp d) l st).
Proof.
  apply (fold_hop_keeps facts tv tc (fun _ seen => x ∈ seen)).
  intros ps seen np Hx _. apply elem_of_union. right. exact Hx.
Qed.

Lemma seen_is_recorded_record (ps : list (list Fact)) (seen : gset (gset Key))
    (new_path : list Fact) :
  seen_is_recorded ps seen -> edge_set new_path ∉ seen ->
  seen_is_recorded (ps ++ [new_path]) ({[edge_set new_path]} ∪ seen).
Proof.
  intros [Hseen Hnd] Hnew. split.
  - rewrite map_app. cbn [map]. rewrite list_to_set_snoc_L, <- Hseen.
    apply union_comm_L.
  - rewrite map_app. cbn [map]. apply List.NoDup_app; [exact Hnd | | ].
    + constructor; [intros [] | constructor].
    + intros x Hx [<- | []]. apply Hnew. rewrite Hseen.
      apply elem_of_list_to_set, list_elem_of_In, Hx.
Qed.

Lemma find_supporting_paths_recorded (db : FactDatabase) (key : Key) :
  let st := let '((cat1, val1), (cat2, val2)) := key in
            explore_path 5 db val1 cat1 val2 cat2 [] 0 (mkSearch ∅ [] ∅) in
  paths st = _find_supporting_paths db key
  /\ seen_is_recorded (paths st) (seen_paths st).
Proof.
  destruct key as [[cat1 val1] [cat2 val2]]. cbv zeta. split; [reflexivity|].
  apply (explore_path_keeps db val2 cat2 seen_is_recorded seen_is_recorded_record).
  split; [reflexivity | constructor].
Qed.

(** X4: no two of the returned paths have the same set of address pairs;
    in particular no path is returned twice. *)
Theorem supporting_paths_distinct_edge_sets (db : FactDatabase) (key : Key) :
  List.NoDup (map edge_set (_find_supporting_paths db key))
  /\ List.NoDup (_find_supporting_paths db key).
Proof.
  destruct (find_supporting_paths_recorded db key) as [Hp [_ Hnd]].
  rewrite Hp in Hnd. split; [exact Hnd|].
  eapply List.NoDup_map_inv. exact Hnd.
Qed.

(** ** No fact twice on a path *)

Lemma trail_snoc (cp : list Fact) (fact : Fact) (seen_keys : gset Key) :
  List.NoDup (map key_of_fact cp) ->
  (forall f : Fact, In f cp -> key_of_fact f ∈ seen_keys) ->
  key_of_fact fact ∉ seen_keys ->
  List.NoDup (map key_of_fact (cp ++ [fact])).
Proof.
  intros Hnd Hvis Hnew. rewrite map_app. cbn [map].
  apply List.NoDup_app; [exact Hnd | | ].
  - constructor; [intros [] | constructor].
  - intros k Hk [<- | []]. apply Hnew.
    apply in_map_iff in Hk as [f [<- Hf]]. apply Hvis, Hf.
Qed.

Section ExploreTrail.

Variable facts : FactDatabase.
Variables target_val target_cat : string.

Hypothesis facts_keys :
  Forall (fun e : Key * Fact => fst e = key_of_fact (snd e)) facts.

Lemma explore_path_trails :
  forall fuel cv cc cp d st,
    List.NoDup (map key_of_fact cp) ->
    (forall f : Fact, In f cp -> key_of_fact f ∈ visited st) ->
    Forall (fun p => List.NoDup (map key_of_fact p)) (paths st) ->
    Forall (fun p => List.NoDup (map key_of_fact p))
           (paths (explore_path fuel facts cv cc target_val target_cat cp d st)).
Proof.
  induction fuel as [|fuel IH]; intros cv cc cp d st Hnd Hvis Hst; [exact Hst|].
  rewrite explore_path_unfold.
  destruct (3 <? d)%nat; [exact Hst|].
  cut (forall l, incl l facts -> forall st',
          visited st' = visited st ->
          Forall (fun p => List.NoDup (map key_of_fact p)) (paths st') ->
          Forall (fun p => List.NoDup (map key_of_fact p))
                 (paths (fold_left (hop fuel facts cv cc target_val target_cat cp d) l st'))).
  { intros Hloop. apply Hloop; [apply incl_refl | reflexivity | exact Hst]. }
  clear Hst.
  induction l as [|[key fact] l IHl]; intros Hl st' Hsame Hst; [exact Hst|].
  destruct (incl_cons_inv Hl) as [Hstored Hl'].
  cbn [fold_left]. apply IHl; [exact Hl' | rewrite hop_visited; exact Hsame|].
  unfold hop.
  case_bool_decide as Hkey; [exact Hst|].
  destruct (connects_to_current fact cv cc) as [[nv nc]|]; [|exact Hst].
  pose proof (proj1 (List.Forall_forall _ _) facts_keys _ Hstored) as Hk.
  cbn [fst snd] in Hk.
  rewrite Hsame, Hk in Hkey.
  cbn [paths].
  destruct (bool_decide (nc = target_cat) && bool_decide (nv = target_val)).
  - cbn [seen_paths paths visited].
    destruct (bool_decide _); cbn [paths]; [exact Hst|].
    apply Forall_app. split; [exact Hst|].
    constructor; [|constructor].
    apply (trail_snoc cp fact (visited st)); assumption.
  - apply IH.
    + apply (trail_snoc cp fact (visited st)); assumption.
    + intros f Hf. cbn [visited]. rewrite Hsame. apply elem_of_union.
      apply in_app_iff in Hf as [Hf | [<- | []]].
      * right. apply Hvis, Hf.
      * left. apply elem_of_singleton. symmetry. exact Hk.
    + exact Hst.
Qed.

End ExploreTrail.

Lemma find_supporting_paths_trail (db : FactDatabase) (key : Key) (p : list Fact) :
  store_ok db ->
  In p (_find_supporting_paths db key) ->
  List.NoDup (map key_of_fact p).
Proof.
  intros [_ Hkeys]. destruct key as [[cat1 val1] [cat2 val2]].
  unfold _find_supporting_paths. revert p. apply List.Forall_forall.
  apply explore_path_trails; [exact Hkeys | constructor | intros f [] | constructor].
Qed.

(** X3: on a store that satisfies its invariant, no returned path uses
    the same address pair twice, hence no fact twice. *)
Theorem supporting_path_never_repeats_a_fact (db : FactDatabase) (key : Key)
    (p : list Fact) :
  store_ok db ->
  In p (_find_supporting_paths db key) ->
  List.NoDup (map key_of_fact p) /\ List.NoDup p.
Proof.
  intros Hok Hin.
  pose proof (find_supporting_paths_trail db key p Hok Hin) as Hnd.
  split; [exact Hnd | eapply List.NoDup_map_inv; exact Hnd].
Qed.

Lemma supporting_path_never_repeats_a_fact_witness :
  List.NoDup (map key_of_fact [f90; f80]) /\ List.NoDup [f90; f80].
Proof.
  apply (supporting_path_never_repeats_a_fact
           fixture (("Name", "Alex"), ("Job", "Doctor")) [f90; f80]).
  - exact fixture_ok.
  - vm_compute. left. reflexivity.
Defined.

(** ** Completeness of the path search *)

Lemma leads_connects (f : Fact) (cv cc : string) (c : Node) :
  leads f (cc, cv) c ->
  exists nv nc : string, connects_to_current f cv cc = Some (nv, nc) /\ c = (nc, nv).
Proof.
  unfold leads, node1, node2, connects_to_current.
  intros [[H1 H2] | [H2 H1]]; repeat case_bool_decide; cbn [andb];
    try (inversion H1; inversion H2; congruence);
    eexists _, _; (split; [reflexivity|]); inversion H1; inversion H2; congruence.
Qed.

Lemma fold_hop_reaches (facts : FactDatabase) (tv tc : string) (x : gset Key)
    (fuel : nat) (cv cc : string) (cp : list Fact) (d : nat)
    (V : gset Key) (e : Key * Fact) :
  (forall st, visited st = V ->
              x ∈ seen_paths (hop fuel facts cv cc tv tc cp d st e)) ->
  forall l st,
    In e l -> visited st = V ->
    x ∈ seen_paths (fold_left (hop fuel facts cv cc tv tc cp d) l st).
Proof.
  intros Hhop. induction l as [|e0 l IH]; intros st Hin HV; [contradiction|].
  cbn [fold_left]. destruct Hin as [-> | Hin].
  - apply fold_hop_seen_grow, Hhop, HV.
  - apply IH; [exact Hin | rewrite hop_visited; exact HV].
Qed.

Lemma explore_path_complete (facts : FactDatabase) (tv tc : string) :
  forall (es : list (Key * Fact)) fuel d cv cc cp st,
    (5 <= fuel + d)%nat ->
    (length es + d <= 4)%nat ->
    Forall (fun e => In e facts) es ->
    List.NoDup (map fst es) ->
    (forall e, In e es -> fst e ∉ visited st) ->
    arrives_first es (cc, cv) (tc, tv) ->
    edge_set (cp ++ map snd es)
    ∈ seen_paths (explore_path fuel facts cv cc tv tc cp d st).
Proof.
  induction es as [|[k f] es IH]; intros fuel d cv cc cp st Hfuel Hlen Hall Hnd Hfree Harr;
    [contradiction|].
  cbn [length] in Hlen.
  destruct fuel as [|fuel]; [lia|].
  rewrite explore_path_unfold.
  destruct (3 <? d)%nat eqn:Hd; [apply Nat.ltb_lt in Hd; lia|].
  inversion Hall as [|? ? Hstored Hall']; subst.
  inversion Hnd as [|? ? Hk Hnd']; subst.
  apply (fold_hop_reaches facts tv tc _ fuel cv cc cp d (visited st) (k, f));
    [|exact Hstored | reflexivity].
  intros st' Hsame. unfold hop.
  case_bool_decide as Hvis.
  { exfalso. apply (Hfree (k, f)); [now left | rewrite <- Hsame; exact Hvis]. }
  destruct es as [|e2 es'].
  - cbn [arrives_first] in Harr.
    destruct (leads_connects f cv cc _ Harr) as (nv & nc & -> & Hc).
    inversion Hc; subst.
    rewrite !bool_decide_eq_true_2 by reflexivity. cbn [andb seen_paths paths visited].
    cbn [map snd]. fold (edge_set (cp ++ [f])).
    case_bool_decide as Hseen; cbn [seen_paths]; [exact Hseen|].
    apply elem_of_union. left. apply elem_of_singleton. reflexivity.
  - cbn [arrives_first] in Harr. destruct Harr as (c & Hleads & Hne & Harr).
    destruct (leads_connects f cv cc _ Hleads) as (nv & nc & -> & ->).
    assert (Hnot : bool_decide (nc = tc) && bool_decide (nv = tv) = false).
    { repeat case_bool_decide; cbn [andb]; try reflexivity. congruence. }
    rewrite Hnot. cbn [seen_paths].
    replace (cp ++ map snd ((k, f) :: e2 :: es'))
      with ((cp ++ [f]) ++ map snd (e2 :: es'))
      by (rewrite <- app_assoc; reflexivity).
    apply IH; [lia | cbn [length] in *; lia | exact Hall' | exact Hnd' | | exact Harr].
    intros e He. cbn [visited]. rewrite Hsame.
    intros Hin. apply elem_of_union in Hin as [Hin | Hin].
    + apply elem_of_singleton in Hin. apply Hk. rewrite <- Hin.
      apply in_map, He.
    + apply (Hfree e); [now right | exact Hin].
Qed.

Lemma find_supporting_paths_complete (db : FactDatabase) (n1 n2 : Node)
    (es : list (Key * Fact)) :
  (length es <= 4)%nat ->
  Forall (fun e => In e db) es ->
  List.NoDup (map fst es) ->
  arrives_first es n1 n2 ->
  exists p : list Fact,
    In p (_find_supporting_paths db (n1, n2)) /\ edge_set p = edge_set (map snd es).
Proof.
  intros Hlen Hall Hnd Harr.
  destruct (find_supporting_paths_recorded db (n1, n2)) as [Hp [Hseen _]].
  destruct n1 as [cat1 val1], n2 as [cat2 val2]. cbv zeta in Hp, Hseen.
  pose proof (explore_path_complete db val2 cat2 es 5 0 val1 cat1 []
                (mkSearch ∅ [] ∅) ltac:(lia) ltac:(lia) Hall Hnd
                ltac:(intros e _; apply not_elem_of_empty) Harr) as Hin.
  cbn [app] in Hin. rewrite Hseen, Hp in Hin.
  apply elem_of_list_to_set, list_elem_of_In, in_map_iff in Hin as [p [Hp' Hin]].
  exists p. split; assumption.
Qed.

(** X5: the search is complete up to the order of the facts.  For one to
    four stored entries with different keys that lead from the first node
    of the key to the second and reach it with the last entry only, some
    returned path has exactly their address pairs. *)
Theorem supporting_paths_complete (db : FactDatabase) (n1 n2 : Node)
    (es : list (Key * Fact)) :
  (length es <= 4)%nat ->
  Forall (fun e => In e db) es ->
  List.NoDup (map fst es) ->
  arrives_first es n1 n2 ->
  exists p : list Fact,
    In p (_find_supporting_paths db (n1, n2)) /\ edge_set p = edge_set (map snd es).
Proof. apply find_supporting_paths_complete. Qed.

Lemma supporting_paths_complete_witness :
  exists p : list Fact,
    In p (_find_supporting_paths fixture (("Name", "Alex"), ("Job", "Doctor")))
    /\ edge_set p
       = edge_set (map snd [(key_of_fact f90, f90); (key_of_fact f80, f80)]).
Proof.
  apply (supporting_paths_complete fixture ("Name", "Alex") ("Job", "Doctor")
           [(key_of_fact f90, f90); (key_of_fact f80, f80)]).
  - simpl. lia.
  - constructor; [vm_compute; auto 10|].
    constructor; [vm_compute; auto 10 | constructor].
  - repeat constructor; simpl; intuition discriminate.
  - simpl. exists ("House", "Blue").
    split; [left; split; reflexivity|].
    split; [discriminate | left; split; reflexivity].
Defined.

(** ** A stored fact supports itself *)

Lemma stored_same_key (db : FactDatabase) (k1 k2 : Key) (f1 f2 : Fact) :
  store_ok db -> In (k1, f1) db -> In (k2, f2) db ->
  key_of_fact f1 = key_of_fact f2 -> f1 = f2.
Proof.
  intros [Hnd Hkeys] H1 H2 Hk.
  rewrite List.Forall_forall in Hkeys.
  pose proof (Hkeys _ H1) as E1. pose proof (Hkeys _ H2) as E2.
  cbn [fst snd] in E1, E2.
  assert (Hk12 : k2 = k1) by congruence. rewrite Hk12 in H2.
  pose proof (dict_get_In db k1 f1 Hnd H1) as G1.
  pose proof (dict_get_In db k1 f2 Hnd H2) as G2.
  congruence.
Qed.

Lemma direct_fact_found (db : FactDatabase) (k : Key) (f : Fact) (n1 n2 : Node) :
  store_ok db -> In (k, f) db -> leads f n1 n2 ->
  In [f] (_find_supporting_paths db (n1, n2)).
Proof.
  intros Hok Hin Hleads.
  destruct (find_supporting_paths_complete db n1 n2 [(k, f)]) as (p & Hp & Hset).
  { simpl. lia. }
  { repeat constructor. exact Hin. }
  { repeat constructor. intros []. }
  { exact Hleads. }
  pose proof (find_supporting_paths_trail db _ p Hok Hp) as Hnd.
  destruct (find_supporting_paths_sound db n1 n2 p Hp) as [[Hlen _] Hw].
  apply walk_stored in Hw. rewrite List.Forall_forall in Hw.
  assert (Hall : forall g : Fact, In g p -> g = f).
  { intros g Hg. destruct (Hw g Hg) as [kg Hkg].
    apply (stored_same_key db kg k g f Hok Hkg Hin).
    assert (Hmem : key_of_fact g ∈ edge_set p).
    { apply elem_of_list_to_set, list_elem_of_In, in_map, Hg. }
    rewrite Hset in Hmem. unfold edge_set in Hmem. cbn [map snd] in Hmem.
    apply elem_of_list_to_set, list_elem_of_In in Hmem as [Heq | []].
    congruence. }
  destruct p as [|g [|g' p']].
  - simpl in Hlen. lia.
  - rewrite (Hall g) in Hp by now left. exact Hp.
  - exfalso. cbn [map] in Hnd. inversion Hnd as [|? ? Hnotin _]; subst.
    apply Hnotin. left.
    rewrite (Hall g) by now left. rewrite (Hall g') by (right; now left).
    reflexivity.
Qed.

(** X6: on a store that satisfies its invariant, a stored fact is found
    as a one-fact supporting path between its two nodes, searched from
    either side. *)
Theorem stored_fact_is_a_supporting_path (db : FactDatabase) (k : Key) (f : Fact) :
  store_ok db -> In (k, f) db ->
  In [f] (_find_supporting_paths db (node1 f, node2 f))
  /\ In [f] (_find_supporting_paths db (node2 f, node1 f)).
Proof.
  intros Hok Hin. split.
  - apply (direct_fact_found db k f _ _ Hok Hin). left. split; reflexivity.
  - apply (direct_fact_found db k f _ _ Hok Hin). right. split; reflexivity.
Qed.

Lemma stored_fact_is_a_supporting_path_witness :
  In [f80] (_find_supporting_paths fixture (node1 f80, node2 f80))
  /\ In [f80] (_find_supporting_paths fixture (node2 f80, node1 f80)).
Proof.
  apply (stored_fact_is_a_supporting_path fixture (key_of_fact f80) f80).
  - exact fixture_ok.
  - vm_compute. auto 10.
Defined.

Lemma py_max_seq_upper (x : Qc) (xs : list Qc) (y : Qc) :
  In y (x :: xs) -> y <= py_max_seq x xs.
Proof.
  intros Hy. destruct (py_max_seq_is_max xs x) as [_ Hall].
  rewrite List.Forall_forall in Hall. apply Hall, Hy.
Qed.

(** X7: on a store that satisfies its invariant, the trust of a candidate
    that is itself a stored fact, and that no stored fact directly
    contradicts, is at least the trust score of that fact. *)
Theorem stored_fact_trust_at_least_its_score (db : FactDatabase) (k : Key) (f : Fact) :
  store_ok db -> In (k, f) db ->
  (forall (k' : Key) (f' : Fact),
      In (k', f') db -> _directly_contradicts (key_of_fact f) k' = false) ->
  trust_score f
  <= get_fact_trust db (category1 f) (value1 f) (category2 f) (value2 f).
Proof.
  intros Hok Hin Hnone. apply contradicting_facts_nil in Hnone.
  pose proof (direct_fact_found db k f (node1 f) (node2 f) Hok Hin
                (or_introl (conj eq_refl eq_refl))) as Hp.
  match type of Hp with
  | In _ ?found => destruct found as [|p ps] eqn:E; [exfalso; exact Hp|]
  end.
  rewrite (get_fact_trust_supported db _ _ _ _ p ps Hnone E).
  eapply Qcle_trans; [|apply py_max_r].
  apply (py_max_seq_upper _ _ (_calculate_path_trust [f])).
  change (In (_calculate_path_trust [f]) (map _calculate_path_trust (p :: ps))).
  apply in_map, Hp.
Qed.

Lemma stored_fact_trust_at_least_its_score_witness :
  trust_score f80 <= get_fact_trust fixture "House" "Blue" "Job" "Doctor".
Proof.
  apply (stored_fact_trust_at_least_its_score fixture (key_of_fact f80) f80).
  - exact fixture_ok.
  - vm_compute. auto 10.
  - apply contradicting_facts_nil. vm_compute. reflexivity.
Defined.

(** ** The range of the trust *)

Lemma Qcminus_le_self (a m : Qc) : 0 <= m -> a - m <= a.
Proof.
  intros Hm. unfold Qcminus.
  rewrite <- (Qcplus_0_r a) at 2.
  apply Qcplus_le_compat; [apply Qcle_refl|].
  apply Qcopp_le_compat in Hm.
  replace (- 0) with 0 in Hm by ring. exact Hm.
Qed.

Lemma qc_le (a b : Z) : (a <= b)%Z -> qc a <= qc b.
Proof. intros H. unfold qc, Qcle. cbn [this Qc_of_Z]. rewrite <- Zle_Qle. exact H. Qed.

Lemma get_fact_trust_nonneg (db : FactDatabase) (c1 v1 c2 v2 : string) :
  qc 0 <= get_fact_trust db c1 v1 c2 v2.
Proof.
  unfold get_fact_trust. cbv zeta.
  destruct (contradicting_facts db _) as [|f fs]; [|apply py_max_l].
  destruct (_find_supporting_paths db _) as [|p ps].
  - apply qc_le. lia.
  - rewrite fold_max_support. apply py_max_seq_upper. now left.
Qed.

Lemma found_path_in_range (db : FactDatabase) (key : Key) (p : list Fact) :
  Forall (fun e : Key * Fact => in_range (snd e)) db ->
  In p (_find_supporting_paths db key) ->
  0 <= _calculate_path_trust p /\ _calculate_path_trust p <= qc 100.
Proof.
  intros Hrange Hp. destruct key as [n1 n2].
  destruct (find_supporting_paths_sound db n1 n2 p Hp) as [[Hlen _] Hw].
  apply path_trust_range.
  - intros ->. simpl in Hlen. lia.
  - apply walk_stored in Hw.
    eapply List.Forall_impl; [|exact Hw].
    intros f [k Hin]. rewrite List.Forall_forall in Hrange.
    apply (Hrange _ Hin).
Qed.

(** X8: [get_fact_trust] never returns a negative number, and when every
    stored trust score lies in 0..100 its result lies in 0..100 as the
    docstring says. *)
Theorem get_fact_trust_between_0_and_100 (db : FactDatabase) (c1 v1 c2 v2 : string) :
  qc 0 <= get_fact_trust db c1 v1 c2 v2
  /\ (Forall (fun e : Key * Fact => in_range (snd e)) db ->
      get_fact_trust db c1 v1 c2 v2 <= qc 100).
Proof.
  split; [apply get_fact_trust_nonneg|].
  intros Hrange.
  assert (H0 : qc 0 <= qc 100) by (apply qc_le; lia).
  destruct (contradicting_facts db ((c1, v1), (c2, v2))) as [|f fs] eqn:Hc.
  - destruct (_find_supporting_paths db ((c1, v1), (c2, v2))) as [|p ps] eqn:Hp.
    + rewrite (get_fact_trust_neutral db c1 v1 c2 v2 Hc Hp). apply qc_le. lia.
    + rewrite (get_fact_trust_supported db c1 v1 c2 v2 p ps Hc Hp).
      destruct (py_max_cases (qc 0)
                  (py_max_seq (_calculate_path_trust p) (map _calculate_path_trust ps)))
        as [-> | ->]; [exact H0|].
      destruct (py_max_seq_is_max (map _calculate_path_trust ps) (_calculate_path_trust p))
        as [Hin _].
      change (In (py_max_seq (_calculate_path_trust p) (map _calculate_path_trust ps))
                 (map _calculate_path_trust (p :: ps))) in Hin.
      apply in_map_iff in Hin as [q [<- Hq]]. rewrite <- Hp in Hq.
      apply (found_path_in_range db _ q Hrange Hq).
  - rewrite (get_fact_trust_contradicted db c1 v1 c2 v2 f fs Hc).
    destruct (py_max_cases (qc 0)
                (qc 100 - py_max_seq (trust_score f) (map trust_score fs)))
      as [-> | ->]; [exact H0|].
    apply Qcminus_le_self.
    destruct (py_max_seq_is_max (map trust_score fs) (trust_score f)) as [Hin _].
    change (In (py_max_seq (trust_score f) (map trust_score fs))
               (map trust_score (f :: fs))) in Hin.
    apply in_map_iff in Hin as [g [<- Hg]]. rewrite <- Hc in Hg.
    apply contradicting_facts_In in Hg as [k [Hin _]].
    rewrite List.Forall_forall in Hrange.
    destruct (Hrange _ Hin) as [Hlo _]. cbn [snd] in Hlo.
    rewrite qc_0 in Hlo. exact Hlo.
Qed.

Lemma fixture_in_range : Forall (fun e : Key * Fact => in_range (snd e)) fixture.
Proof. repeat constructor; apply qc_le; lia. Qed.

Lemma get_fact_trust_between_0_and_100_witness :
  qc 0 <= get_fact_trust fixture "Name" "Alex" "Job" "Doctor"
  /\ get_fact_trust fixture "Name" "Alex" "Job" "Doctor" <= qc 100.
Proof.
  destruct (get_fact_trust_between_0_and_100 fixture "Name" "Alex" "Job" "Doctor")
    as [Hlo Hhi].
  split; [exact Hlo | apply Hhi, fixture_in_range].
Defined.

(** ** Further facts on direct contradiction and on the search *)

(** X1: direct contradiction is symmetric: [a] contradicts [b] exactly
    when [b] contradicts [a]. *)
Theorem directly_contradicts_symmetric (a b : Key) :
  _directly_contradicts a b = _directly_contradicts b a.
Proof. apply directly_contradicts_sym. Qed.

(** X2: the search is sound: every returned path has between one and
    four facts, all of them stored, and they lead one after the other
    from the first node of the key to the second. *)
Theorem supporting_paths_are_walks (db : FactDatabase) (n1 n2 : Node) (p : list Fact) :
  In p (_find_supporting_paths db (n1, n2)) ->
  (1 <= length p <= 4)%nat
  /\ walk db n1 n2 p
  /\ Forall (fun f => exists k : Key, In (k, f) db) p.
Proof.
  intros Hp. destruct (find_supporting_paths_sound db n1 n2 p Hp) as [Hlen Hw].
  split; [exact Hlen|]. split; [exact Hw | apply (walk_stored db n1 n2 p Hw)].
Qed.

Lemma supporting_paths_are_walks_witness :
  (1 <= length [f90; f80] <= 4)%nat
  /\ walk fixture ("Name", "Alex") ("Job", "Doctor") [f90; f80]
  /\ Forall (fun f => exists k : Key, In (k, f) fixture) [f90; f80].
Proof.
  apply (supporting_paths_are_walks fixture ("Name", "Alex") ("Job", "Doctor")).
  vm_compute. left. reflexivity.
Defined.

(** X17: a call of [explore_path] leaves [visited] as it found it: every
    key it adds is removed again before it returns. *)
Theorem explore_path_leaves_visited_unchanged (facts : FactDatabase)
    (fuel : nat) (current_val current_cat target_val target_cat : string)
    (current_path : list Fact) (depth : nat) (st : SearchState) :
  visited (explore_path fuel facts current_val current_cat target_val target_cat
                        current_path depth st)
  = visited st.
Proof. apply explore_path_restores_visited. Qed.

(** ** Neighbours of a node *)

Lemma find_all_connections_grow (category value : string) (x : Node)
    (l : list (Key * Fact)) :
  forall acc : gset Node,
    x ∈ acc ->
    x ∈ fold_left
          (fun (connections : gset Node) (entry : Key * Fact) =>
             let '(key, fact) := entry in
             if bool_decide (category1 fact = category) && bool_decide (value1 fact = value)
             then {[(category2 fact, value2 fact)]} ∪ connections
             else if bool_decide (category2 fact = category)
                     && bool_decide (value2 fact = value)
             then {[(category1 fact, value1 fact)]} ∪ connections
             else connections)
          l acc.
Proof.
  induction l as [|[key fact] l IH]; intros acc Hx; [exact Hx|].
  cbn [fold_left]. apply IH.
  destruct (_ && _); [apply elem_of_union; right; exact Hx|].
  destruct (_ && _); [apply elem_of_union; right; exact Hx | exact Hx].
Qed.

Lemma one_hop_find_all_connections (db : FactDatabase) (category value : string)
    (x : Node) :
  one_hop db (category, value) x -> x ∈ _find_all_connections db category value.
Proof.
  intros (k & f & Hin & Hleads). unfold _find_all_connections.
  generalize (∅ : gset Node) as acc. revert Hin.
  induction db as [|[key fact] db IH]; intros Hin acc; [contradiction|].
  cbn [fold_left]. destruct Hin as [Heq | Hin]; [|apply IH, Hin].
  inversion Heq; subst key fact. apply find_all_connections_grow.
  unfold leads, node1, node2 in Hleads.
  destruct Hleads as [[H1 H2] | [H2 H1]]; inversion H1; inversion H2; subst;
    repeat case_bool_decide; cbn [andb]; try congruence;
    apply elem_of_union; left; apply elem_of_singleton; congruence.
Qed.

(** X9: [_find_all_connections] returns exactly the nodes that a stored
    fact joins to the given node, whichever side of the fact the node is
    on. *)
Theorem find_all_connections_iff (db : FactDatabase) (category value : string)
    (x : Node) :
  x ∈ _find_all_connections db category value <-> one_hop db (category, value) x.
Proof.
  split; [apply find_all_connections_one_hop | apply one_hop_find_all_connections].
Qed.

Lemma get_all_related_facts_In (db : FactDatabase) (category value : string) (f : Fact) :
  In f (get_all_related_facts db category value) <->
  exists k : Key,
    In (k, f) db /\ (node1 f = (category, value) \/ node2 f = (category, value)).
Proof.
  unfold get_all_related_facts, node1, node2. rewrite in_flat_map. split.
  - intros [[k g] [Hin Hg]].
    destruct (_ || _) eqn:Hb; [|contradiction].
    destruct Hg as [-> | []]. exists k. split; [exact Hin|].
    repeat case_bool_decide; cbn [andb orb] in Hb; try discriminate;
      intuition congruence.
  - intros [k [Hin Hn]]. exists (k, f). split; [exact Hin|].
    assert (Hb : bool_decide (category1 f = category) && bool_decide (value1 f = value)
                 || bool_decide (category2 f = category) && bool_decide (value2 f = value)
                 = true).
    { destruct Hn as [Hn | Hn]; inversion Hn; subst;
        repeat case_bool_decide; cbn [andb orb]; congruence. }
    rewrite Hb. now left.
Qed.

Lemma leads_touches (f : Fact) (a b : Node) :
  leads f a b -> node1 f = a \/ node2 f = a.
Proof. intros [[H _] | [H _]]; auto. Qed.

Lemma leads_sym (f : Fact) (a b : Node) : leads f a b -> leads f b a.
Proof. unfold leads. intuition. Qed.

Lemma walk_nil_inv (db : FactDatabase) (a b : Node) : walk db a b [] -> b = a.
Proof.
  intros Hw. inversion Hw as [|c d p k f _ _ _ Hp]; [reflexivity|].
  destruct p; discriminate.
Qed.

(** The first fact of a walk touches the node it starts from, the last
    one the node it ends at. *)
Lemma walk_first (db : FactDatabase) (a b : Node) (p : list Fact) :
  walk db a b p -> p <> [] ->
  exists (k : Key) (f : Fact), In (k, f) db /\ (node1 f = a \/ node2 f = a).
Proof.
  induction 1 as [|b c p k f Hw IH Hin Hl]; intros Hne; [congruence|].
  destruct p as [|g p'].
  - apply walk_nil_inv in Hw. subst b.
    exists k, f. split; [exact Hin | apply (leads_touches f a c Hl)].
  - apply IH. discriminate.
Qed.

Lemma walk_last (db : FactDatabase) (a b : Node) (p : list Fact) :
  walk db a b p -> p <> [] ->
  exists (k : Key) (f : Fact), In (k, f) db /\ (node1 f = b \/ node2 f = b).
Proof.
  intros Hw Hne. destruct Hw as [|c d p k f _ Hin Hl]; [congruence|].
  exists k, f. split; [exact Hin | apply (leads_touches f d c), leads_sym, Hl].
Qed.

(** X10: [get_all_related_facts] returns exactly the stored facts that
    touch the node; the nodes of [_find_all_connections] are the other
    ends of these facts; and when it returns nothing for a node, no
    supporting path is found from that node or to it. *)
Theorem related_facts_and_isolated_nodes (db : FactDatabase) (category value : string) :
  (forall f : Fact,
      In f (get_all_related_facts db category value) <->
      exists k : Key,
        In (k, f) db /\ (node1 f = (category, value) \/ node2 f = (category, value)))
  /\ (forall x : Node,
         x ∈ _find_all_connections db category value <->
         exists f : Fact,
           In f (get_all_related_facts db category value)
           /\ leads f (category, value) x)
  /\ (get_all_related_facts db category value = [] ->
      forall n : Node,
        _find_supporting_paths db ((category, value), n) = []
        /\ _find_supporting_paths db (n, (category, value)) = []).
Proof.
  split; [intros f; apply get_all_related_facts_In|]. split.
  - intros x. split.
    + intros Hx. apply find_all_connections_one_hop in Hx as (k & f & Hin & Hl).
      exists f. split; [|exact Hl].
      apply get_all_related_facts_In. exists k. split; [exact Hin|].
      apply (leads_touches f _ x Hl).
    + intros (f & Hf & Hl). apply one_hop_find_all_connections.
      apply get_all_related_facts_In in Hf as [k [Hin _]].
      exists k, f. split; assumption.
  - intros Hnone n.
    assert (Hiso : forall (k : Key) (f : Fact),
               In (k, f) db ->
               ~ (node1 f = (category, value) \/ node2 f = (category, value))).
    { intros k f Hin Hn.
      assert (Hf : In f (get_all_related_facts db category value))
        by (apply get_all_related_facts_In; eauto).
      rewrite Hnone in Hf. exact Hf. }
    split; apply no_walk_no_supporting_path; intros p Hp Hw.
    + destruct (walk_first db _ _ p Hw Hp) as (k & f & Hin & Hn).
      apply (Hiso k f Hin Hn).
    + destruct (walk_last db _ _ p Hw Hp) as (k & f & Hin & Hn).
      apply (Hiso k f Hin Hn).
Qed.

Lemma related_facts_and_isolated_nodes_witness :
  _find_supporting_paths fixture (("Pet", "Dog"), ("Name", "Alex")) = []
  /\ _find_supporting_paths fixture (("Name", "Alex"), ("Pet", "Dog")) = [].
Proof.
  apply (proj2 (proj2 (related_facts_and_isolated_nodes fixture "Pet" "Dog"))).
  vm_compute. reflexivity.
Defined.

(** ** The weakest fact of a path *)

Lemma decay_step_le_score (t : Qc) (f : Fact) :
  0 <= t -> t <= qc 100 -> in_range f -> decay_step t f <= trust_score f.
Proof.
  intros Ht0 Ht100 [Hs0 Hs100]. rewrite qc_0 in Hs0.
  unfold decay_step. cbv zeta.
  set (s := trust_score f) in *.
  assert (Hd0 : 0 <= (s * t) / qc 10000).
  { unfold Qcdiv. apply Qcmult_nonneg; [|apply inv_10000_nonneg].
    apply Qcmult_nonneg; assumption. }
  assert (Hd1 : (s * t) / qc 10000 <= 1).
  { rewrite <- div_10000_self. unfold Qcdiv.
    apply Qcmult_le_compat_r; [|apply inv_10000_nonneg].
    rewrite <- qc_10000. apply Qcmult_le_mono; assumption. }
  apply Qcle_trans with (s * 1); [|rewrite Qcmult_1_r; apply Qcle_refl].
  apply Qcmult_le_mono;
    [apply py_min_nonneg; assumption | apply py_min_r | assumption | assumption].
Qed.

Lemma fold_decay_le_scores (rest : list Fact) :
  forall t : Qc,
    0 <= t -> t <= qc 100 -> Forall in_range rest ->
    forall f : Fact, In f rest -> fold_left decay_step rest t <= trust_score f.
Proof.
  induction rest as [|r rest IH]; intros t Ht0 Ht100 Hall f Hf; [contradiction|].
  inversion Hall as [|? ? Hr Hrest]; subst. cbn [fold_left].
  destruct (decay_step_range t r Ht0 Ht100 Hr) as [H0 Hle].
  pose proof (Qcle_trans _ _ _ Hle Ht100) as H100.
  destruct Hf as [<- | Hf].
  - destruct (fold_decay_range rest (decay_step t r) H0 H100 Hrest) as [_ Hfold].
    eapply Qcle_trans; [exact Hfold | apply decay_step_le_score; assumption].
  - apply IH; assumption.
Qed.

(** X11: when the trust scores of a path all lie in 0..100, the trust of
    the path is at most the trust score of each of its facts. *)
Theorem path_trust_at_most_every_score (p : list Fact) (f : Fact) :
  Forall in_range p -> In f p -> _calculate_path_trust p <= trust_score f.
Proof.
  intros Hall Hf. destruct p as [|f0 rest]; [contradiction|].
  inversion Hall as [|? ? [H0 H100] Hrest]; subst. rewrite qc_0 in H0.
  rewrite path_trust_cons. destruct Hf as [<- | Hf].
  - apply (fold_decay_range rest (trust_score f0) H0 H100 Hrest).
  - apply (fold_decay_le_scores rest (trust_score f0) H0 H100 Hrest f Hf).
Qed.

Lemma path_trust_at_most_every_score_witness :
  _calculate_path_trust [f90; f80] <= trust_score f80.
Proof.
  apply (path_trust_at_most_every_score [f90; f80] f80).
  - repeat constructor; apply qc_le; lia.
  - right. left. reflexivity.
Defined.

(** ** The impact of a contradicting path *)

Lemma half_pow_range (e : Z) : (0 <= e)%Z -> 0 <= half_pow e /\ half_pow e <= 1.
Proof.
  intros He. unfold half_pow, Qcle. cbn [this Q2Qc].
  rewrite !Qred_correct. split.
  - apply Qpower_0_le. discriminate.
  - rewrite Qinv_power_n. apply Qle_shift_inv_r.
    + apply Qpower_0_lt. reflexivity.
    + rewrite Qmult_1_l. apply Qpower_1_le; [discriminate | exact He].
Qed.

(** X12: the impact of a one-fact path is the trust score of the fact,
    and for a non-empty path with all trust scores in 0..100 the impact
    lies between 0 and the trust of the path. *)
Theorem contradiction_impact_at_most_path_trust :
  (forall f : Fact, _calculate_contradiction_impact [f] = trust_score f)
  /\ (forall p : list Fact,
         p <> [] -> Forall in_range p ->
         0 <= _calculate_contradiction_impact p
         /\ _calculate_contradiction_impact p <= _calculate_path_trust p).
Proof.
  split.
  - intros f. unfold _calculate_contradiction_impact. cbv zeta.
    change (half_pow (Z.of_nat (length [f]) - 1)) with 1.
    rewrite Qcmult_1_r. reflexivity.
  - intros p Hp Hall. unfold _calculate_contradiction_impact. cbv zeta.
    destruct (path_trust_range p Hp Hall) as [H0 _].
    destruct (half_pow_range (Z.of_nat (length p) - 1)) as [Hh0 Hh1].
    { destruct p; [congruence | cbn [length]; lia]. }
    split.
    + apply Qcmult_nonneg; assumption.
    + apply Qcle_trans with (_calculate_path_trust p * 1);
        [|rewrite Qcmult_1_r; apply Qcle_refl].
      apply Qcmult_le_mono; [exact H0 | apply Qcle_refl | exact Hh0 | exact Hh1].
Qed.

Lemma contradiction_impact_at_most_path_trust_witness :
  0 <= _calculate_contradiction_impact [f90; f80]
  /\ _calculate_contradiction_impact [f90; f80] <= _calculate_path_trust [f90; f80].
Proof.
  apply (proj2 contradiction_impact_at_most_path_trust [f90; f80]).
  - discriminate.
  - repeat constructor; apply qc_le; lia.
Defined.

(** ** Indirect and direct contradictions *)

(** X13: on a store that satisfies its invariant, the last fact of every
    indirect contradiction is one of the stored facts that directly
    contradict the candidate; so there is no indirect contradiction
    without a direct one. *)
Theorem indirect_contradiction_ends_in_direct_one (db : FactDatabase)
    (c1 v1 c2 v2 : string) (p : list Fact) :
  store_ok db ->
  In p (_find_indirect_contradictions db ((c1, v1), (c2, v2))) ->
  exists last_fact : Fact,
    last p = Some last_fact
    /\ In last_fact (contradicting_facts db ((c1, v1), (c2, v2))).
Proof.
  intros [_ Hkeys] Hin.
  apply indirect_contradictions_sound in Hin
    as (endpoint & x & lf & _ & _ & Hp & Hlast & Hcontra).
  exists lf. split; [exact Hlast|].
  apply find_supporting_paths_sound in Hp as [_ Hw].
  apply walk_stored in Hw.
  destruct (last_snoc_inv p lf Hlast) as [q ->].
  apply Forall_app in Hw as [_ Hlf].
  inversion Hlf as [|? ? [k Hstored] _]; subst.
  apply contradicting_facts_In. exists k. split; [exact Hstored|].
  rewrite List.Forall_forall in Hkeys. specialize (Hkeys _ Hstored).
  cbn [fst snd] in Hkeys.
  rewrite directly_contradicts_sym, Hkeys. exact Hcontra.
Qed.

Lemma indirect_contradiction_ends_in_direct_one_witness :
  exists last_fact : Fact,
    last [brooke_teacher] = Some last_fact
    /\ In last_fact (contradicting_facts fixture (("Name", "Alex"), ("Job", "Teacher"))).
Proof.
  apply (indirect_contradiction_ends_in_direct_one
           fixture "Name" "Alex" "Job" "Teacher" [brooke_teacher]).
  - exact fixture_ok.
  - vm_compute. left. reflexivity.
Defined.

(** ** Adding facts one after the other *)

Lemma dict_set_set (d : FactDatabase) (key : Key) (v w : Fact) :
  dict_set (dict_set d key v) key w = dict_set d key w.
Proof.
  induction d as [|[k0 v0] d IH]; simpl.
  - destruct (decide (key = key)); congruence.
  - destruct (decide (k0 = key)) as [->|Hne]; simpl.
    + destruct (decide (key = key)); congruence.
    + destruct (decide (k0 = key)); [congruence|]. rewrite IH. reflexivity.
Qed.

Lemma dict_get_None (d : FactDatabase) (key : Key) :
  dict_get d key = None <-> ~ In key (map fst d).
Proof.
  induction d as [|[k0 v0] d IH]; simpl; [tauto|].
  destruct (decide (k0 = key)) as [->|Hne].
  - split; [discriminate | intros H; exfalso; apply H; now left].
  - rewrite IH. intuition.
Qed.

Lemma dict_set_fresh (d : FactDatabase) (key : Key) (v : Fact) :
  ~ In key (map fst d) -> dict_set d key v = d ++ [(key, v)].
Proof.
  induction d as [|[k0 v0] d IH]; simpl; intros Hfresh; [reflexivity|].
  destruct (decide (k0 = key)) as [->|Hne]; [exfalso; apply Hfresh; now left|].
  rewrite IH by tauto. reflexivity.
Qed.

Lemma dict_set_present (d : FactDatabase) (key : Key) (v : Fact) :
  In key (map fst d) -> map fst (dict_set d key v) = map fst d.
Proof.
  induction d as [|[k0 v0] d IH]; simpl; intros Hin; [contradiction|].
  destruct (decide (k0 = key)) as [->|Hne]; simpl; [reflexivity|].
  rewrite IH; [reflexivity|]. destruct Hin; [congruence | assumption].
Qed.

(** X14: the last write wins: adding two facts with the same ordered
    address pair in a row leaves the store as adding the second alone;
    adding the same fact twice is adding it once. *)
Theorem add_fact_last_write_wins (db : FactDatabase) (f g : Fact) :
  key_of_fact f = key_of_fact g ->
  add_fact (add_fact db f) g = add_fact db g.
Proof.
  intros Hk. unfold add_fact. cbv zeta. rewrite Hk. apply dict_set_set.
Qed.

Lemma add_fact_last_write_wins_witness :
  add_fact (add_fact fixture doctor_coffee_70) doctor_coffee_75
  = add_fact fixture doctor_coffee_75.
Proof.
  apply (add_fact_last_write_wins fixture doctor_coffee_70 doctor_coffee_75).
  reflexivity.
Defined.

(** X15: a fact with a new ordered address pair is put at the end of the
    store, after everything that is there; a fact whose address pair is
    already a key takes the place of that key, and the keys and their
    order stay as they are. *)
Theorem add_fact_position (db : FactDatabase) (f : Fact) :
  (dict_get db (key_of_fact f) = None ->
   add_fact db f = db ++ [(key_of_fact f, f)])
  /\ (dict_get db (key_of_fact f) <> None ->
      map fst (add_fact db f) = map fst db
      /\ length (add_fact db f) = length db).
Proof.
  split.
  - intros Hnone. apply dict_set_fresh, dict_get_None, Hnone.
  - intros Hsome.
    assert (Hin : In (key_of_fact f) (map fst db)).
    { destruct (in_dec (fun a b : Key => decide (a = b)) (key_of_fact f) (map fst db))
        as [Hin | Hnot]; [exact Hin|].
      exfalso. apply Hsome, dict_get_None, Hnot. }
    pose proof (dict_set_present db (key_of_fact f) f Hin) as Hkeys.
    split; [exact Hkeys|].
    apply (f_equal (@length Key)) in Hkeys.
    rewrite !length_map in Hkeys. exact Hkeys.
Qed.

Lemma add_fact_position_witness :
  add_fact fixture alex_coffee = fixture ++ [(key_of_fact alex_coffee, alex_coffee)]
  /\ map fst (add_fact fixture doctor_coffee_75) = map fst fixture
  /\ length (add_fact fixture doctor_coffee_75) = length fixture.
Proof.
  split.
  - apply (proj1 (add_fact_position fixture alex_coffee)). vm_compute. reflexivity.
  - apply (proj2 (add_fact_position fixture doctor_coffee_75)).
    vm_compute. discriminate.
Defined.

Lemma fold_add_fact_ok (fs : list Fact) :
  forall db : FactDatabase, store_ok db -> store_ok (fold_left add_fact fs db).
Proof.
  induction fs as [|f fs IH]; intros db Hok; [exact Hok|].
  cbn [fold_left]. apply IH, add_fact_ok, Hok.
Qed.

Lemma fold_add_fact_get (fs : list Fact) (k : Key) :
  forall db : FactDatabase,
    dict_get (fold_left add_fact fs db) k
    = match last (List.filter (fun f => bool_decide (key_of_fact f = k)) fs) with
      | Some f => Some f
      | None => dict_get db k
      end.
Proof.
  induction fs as [|f fs IH]; intros db; [reflexivity|].
  cbn [fold_left List.filter]. rewrite IH.
  case_bool_decide as Hk.
  - destruct (List.filter _ fs) as [|g l] eqn:E.
    + cbn [last]. subst k. apply dict_get_set_eq.
    + rewrite last_cons_cons. destruct (last (g :: l)) eqn:El; [reflexivity|].
      apply last_None in El. discriminate.
  - destruct (last (List.filter _ fs)); [reflexivity|].
    apply dict_get_set_ne. congruence.
Qed.

Lemma fold_add_fact_fresh (fs : list Fact) :
  forall db : FactDatabase,
    List.NoDup (map key_of_fact fs) ->
    (forall f : Fact, In f fs -> ~ In (key_of_fact f) (map fst db)) ->
    fold_left add_fact fs db = db ++ map (fun f => (key_of_fact f, f)) fs.
Proof.
  induction fs as [|f fs IH]; intros db Hnd Hfresh; cbn [fold_left map].
  - rewrite app_nil_r. reflexivity.
  - inversion Hnd as [|? ? Hnotin Hnd']; subst.
    assert (Hadd : add_fact db f = db ++ [(key_of_fact f, f)]).
    { apply dict_set_fresh, Hfresh. now left. }
    rewrite Hadd, IH; [rewrite <- app_assoc; reflexivity | exact Hnd' |].
    intros g Hg. rewrite map_app, in_app_iff. cbn [map fst].
    intros [Hin | [Heq | []]].
    + apply (Hfresh g); [now right | exact Hin].
    + apply Hnotin. rewrite Heq. apply in_map, Hg.
Qed.

(** X16: a store seeded from a list of facts satisfies the invariant of
    the store; a lookup in it gives the last fact of the list with that
    ordered address pair, and nothing when there is none; and when the
    address pairs of the list are all different, the store holds exactly
    the facts of the list, in their order. *)
Theorem seeded_store (initial_facts : list Fact) :
  store_ok (seed initial_facts)
  /\ (forall k : Key,
         dict_get (seed initial_facts) k
         = last (List.filter (fun f => bool_decide (key_of_fact f = k)) initial_facts))
  /\ (List.NoDup (map key_of_fact initial_facts) ->
      seed initial_facts = map (fun f => (key_of_fact f, f)) initial_facts).
Proof.
  unfold seed. split; [|split].
  - apply fold_add_fact_ok. split; constructor.
  - intros k. rewrite fold_add_fact_get.
    destruct (last _); reflexivity.
  - intros Hnd. rewrite fold_add_fact_fresh; [reflexivity | exact Hnd |].
    intros f _ [].
Qed.

Lemma seeded_store_witness :
  seed [f90; f80; doctor_coffee_70; brooke_teacher; red_teacher]
  = map (fun f => (key_of_fact f, f))
        [f90; f80; doctor_coffee_70; brooke_teacher; red_teacher].
Proof.
  apply (proj2 (proj2 (seeded_store
                         [f90; f80; doctor_coffee_70; brooke_teacher; red_teacher]))).
  repeat constructor; simpl; intuition discriminate.
Defined.

(** ** Propagation strictly lowers the trust *)

Lemma Qcmult_pos (a b : Qc) : 0 < a -> 0 < b -> 0 < a * b.
Proof.
  intros Ha Hb. rewrite <- (Qcmult_0_l b).
  apply Qcmult_lt_compat_r; assumption.
Qed.

Lemma inv_10000_pos : 0 < / qc 10000.
Proof. unfold Qclt. vm_compute. reflexivity. Qed.

Lemma decay_step_strict (t : Qc) (f : Fact) :
  0 < t -> t <= qc 100 -> 0 < trust_score f -> trust_score f < qc 100 ->
  0 < decay_step t f /\ decay_step t f < t /\ decay_step t f < trust_score f.
Proof.
  intros Ht0 Ht100 Hs0 Hs100. unfold decay_step. cbv zeta.
  set (s := trust_score f) in *.
  assert (Hd0 : 0 < (s * t) / qc 10000).
  { unfold Qcdiv. apply Qcmult_pos; [|apply inv_10000_pos].
    apply Qcmult_pos; assumption. }
  assert (Hd1 : (s * t) / qc 10000 < 1).
  { rewrite <- div_10000_self. unfold Qcdiv.
    apply Qcmult_lt_compat_r; [apply inv_10000_pos|].
    rewrite <- qc_10000.
    apply Qclt_le_trans with (qc 100 * t).
    - apply Qcmult_lt_compat_r; assumption.
    - rewrite (Qcmult_comm (qc 100) t).
      apply Qcmult_le_compat_r; [exact Ht100|].
      apply Qclt_le_weak. apply Qclt_trans with s; assumption. }
  assert (Hm0 : 0 < py_min t s)
    by (destruct (py_min_cases t s) as [-> | ->]; assumption).
  assert (Hlt : py_min t s * ((s * t) / qc 10000) < py_min t s).
  { rewrite <- (Qcmult_1_l (py_min t s)) at 2.
    rewrite (Qcmult_comm (py_min t s)).
    apply Qcmult_lt_compat_r; assumption. }
  split; [apply Qcmult_pos; assumption|].
  split; (eapply Qclt_le_trans; [exact Hlt|]); [apply py_min_l | apply py_min_r].
Qed.

Lemma fold_decay_strict (rest : list Fact) :
  forall t : Qc,
    0 < t -> t <= qc 100 ->
    Forall (fun f => 0 < trust_score f /\ trust_score f < qc 100) rest ->
    0 < fold_left decay_step rest t
    /\ fold_left decay_step rest t <= t
    /\ (rest <> [] -> fold_left decay_step rest t < t)
    /\ (forall f : Fact, In f rest -> fold_left decay_step rest t < trust_score f).
Proof.
  induction rest as [|r rest IH]; intros t Ht0 Ht100 Hall; cbn [fold_left].
  - split; [exact Ht0|]. split; [apply Qcle_refl|].
    split; [congruence | intros f []].
  - inversion Hall as [|? ? [Hr0 Hr100] Hrest]; subst.
    destruct (decay_step_strict t r Ht0 Ht100 Hr0 Hr100) as (Hs0 & Hst & Hsr).
    assert (Hs100 : decay_step t r <= qc 100).
    { apply Qclt_le_weak. apply Qclt_le_trans with t; assumption. }
    destruct (IH (decay_step t r) Hs0 Hs100 Hrest) as (Hf0 & Hfle & _ & Hfin).
    split; [exact Hf0|].
    split; [eapply Qcle_trans; [exact Hfle | apply Qclt_le_weak, Hst]|].
    split; [intros _; apply Qcle_lt_trans with (decay_step t r); assumption|].
    intros f [<- | Hf]; [|apply Hfin, Hf].
    apply Qcle_lt_trans with (decay_step t r); assumption.
Qed.

(** X18: on a path of two facts or more whose trust scores all lie
    strictly between 0 and 100, the trust of the path is strictly less
    than the trust score of each of its facts. *)
Theorem path_trust_strictly_below_every_score (p : list Fact) (f : Fact) :
  (2 <= length p)%nat ->
  Forall (fun g => 0 < trust_score g /\ trust_score g < qc 100) p ->
  In f p ->
  _calculate_path_trust p < trust_score f.
Proof.
  intros Hlen Hall Hf. destruct p as [|f0 rest]; [contradiction|].
  inversion Hall as [|? ? [H0 H100] Hrest]; subst.
  rewrite path_trust_cons.
  destruct (fold_decay_strict rest (trust_score f0) H0 (Qclt_le_weak _ _ H100) Hrest)
    as (_ & _ & Hhead & Hin).
  destruct Hf as [<- | Hf]; [|apply Hin, Hf].
  apply Hhead. intros ->. cbn [length] in Hlen. lia.
Qed.

Lemma path_trust_strictly_below_every_score_witness :
  _calculate_path_trust [f90; f80] < trust_score f90.
Proof.
  apply (path_trust_strictly_below_every_score [f90; f80] f90).
  - simpl. lia.
  - repeat constructor; unfold Qclt; vm_compute; reflexivity.
  - left. reflexivity.
Defined.
